(** * react-safe-lazy: the reload ledger and the safe-load factory

    A shallow embedding of [src/index.ts].  The module exports a class
    [ForceReloadStorage] (the reload ledger kept in [sessionStorage]) and
    [createSafeLazy], which wraps an import function with immediate retries
    and a bounded number of page reloads.

    What the platform provides is modelled here once and used by the
    embedding of the source:
    - a JS string is the list of its UTF-16 code units ([list N]);
    - [JSON.parse] is a parser for the JSON grammar, [None] standing for the
      [SyntaxError] it throws;
    - [JSON.stringify] is given on what [save] hands to it, an array of
      [[string, number]] pairs;
    - a JS [Map] is the list of its entries in insertion order;
    - a JS number is an exact decimal: an integer, or a decimal fraction.
      Rounding to IEEE doubles is not part of the model.  On the safe
      integers ([JSON.safe], the integers below 2^53 in absolute value)
      the model is the platform: each of them is a double, [x + 1] is
      exact on them, [JSON.stringify] writes them in plain digits and
      [JSON.parse] reads these back.  Beyond them the platform rounds
      (2^53 + 1 is 2^53), overflows (1e400 is [Infinity], written back as
      [null]) and writes exponents (1e21), and the model does not.  So a
      statement about a number that is read from the storage, incremented
      or written back is made for safe integers, the counts the ledger is
      meant for;
    - [sessionStorage] is a finite map from strings to strings, which can
      be read and written (no quota, no denied access);
    - [await] is sequential composition: the code never runs two loads of
      one wrapper at the same time. *)

From Stdlib Require Import ZArith String Ascii.
From Equations Require Import Equations.
From stdpp Require Import gmap list.

Local Open Scope N_scope.

(** ** JS strings *)

(** The code units of an ASCII literal. *)
Definition str (s : string) : list N :=
  map N_of_ascii (list_ascii_of_string s).

(** The same, with every apostrophe of the literal read as a double quote:
    [quoted "['a', 1]"] is the text [["a", 1]]. *)
Definition quoted (s : string) : list N :=
  map (fun c => if c =? 39 then 34 else c) (str s).

Module JSON.

(** *** Numbers *)

Inductive nzdigit := D1 | D2 | D3 | D4 | D5 | D6 | D7 | D8 | D9.

Definition nzdigit_val (d : nzdigit) : N :=
  match d with
  | D1 => 1 | D2 => 2 | D3 => 3 | D4 => 4 | D5 => 5
  | D6 => 6 | D7 => 7 | D8 => 8 | D9 => 9
  end.

Definition nzdigit_of (n : N) : option nzdigit :=
  match n with
  | 1 => Some D1 | 2 => Some D2 | 3 => Some D3 | 4 => Some D4 | 5 => Some D5
  | 6 => Some D6 | 7 => Some D7 | 8 => Some D8 | 9 => Some D9
  | _ => None
  end.

(** [Int z] is the integer [z]; [Dec neg q d k] is the fraction
    [±(10 q + d) / 10 ^ (k + 1)], whose last digit [d] is not zero: every
    number has one representation. *)
Inductive number :=
| Int (z : Z)
| Dec (neg : bool) (q : N) (d : nzdigit) (k : nat).

Definition signed (neg : bool) (n : N) : Z :=
  if neg then (- Z.of_N n)%Z else Z.of_N n.

(** The mantissa and the number of fraction digits of a number. *)
Definition mantissa (x : number) : Z :=
  match x with
  | Int z => z
  | Dec neg q d _ => signed neg (10 * q + nzdigit_val d)
  end.

Definition scale (x : number) : nat :=
  match x with
  | Int _ => 0
  | Dec _ _ _ k => S k
  end.

(** [±m / 10 ^ k] in normal form. *)
Fixpoint strip (neg : bool) (m : N) (k : nat) : number :=
  match k with
  | O => Int (signed neg m)
  | S k' =>
      match nzdigit_of (m mod 10) with
      | Some d => Dec neg (m / 10) d k'
      | None => strip neg (m / 10) k'
      end
  end.

(** [±m * 10 ^ e] in normal form. *)
Definition make_number (neg : bool) (m : N) (e : Z) : number :=
  if (0 <=? e)%Z then Int (signed neg m * 10 ^ e)
  else strip neg m (Z.to_nat (- e)).

(** [x + 1], exact.  The platform adds on doubles; for a safe integer [x]
    (see [safe] below) the sum is exact there too. *)
Definition succ (x : number) : number :=
  match x with
  | Int z => Int (z + 1)
  | Dec _ _ _ k =>
      let m := (mantissa x + 10 ^ Z.of_nat (S k))%Z in
      strip (m <? 0)%Z (Z.abs_N m) (S k)
  end.

(** [x < y] *)
Definition ltb (x y : number) : bool :=
  (mantissa x * 10 ^ Z.of_nat (scale y) <? mantissa y * 10 ^ Z.of_nat (scale x))%Z.

(** [x < 0] *)
Definition negative (x : number) : bool := ltb x (Int 0).

(** [Number.isSafeInteger(x)]: an integer below 2^53 in absolute value. *)
Definition safe (x : number) : bool :=
  match x with
  | Int z => (Z.abs z <? 2 ^ 53)%Z
  | Dec _ _ _ _ => false
  end.

(** *** Lexical classes *)

Definition is_ws (c : N) : bool :=
  (c =? 32) || (c =? 9) || (c =? 10) || (c =? 13).

Definition is_digit (c : N) : bool := (48 <=? c) && (c <=? 57).

Fixpoint skip_ws (s : list N) : list N :=
  match s with
  | c :: s' => if is_ws c then skip_ws s' else s
  | [] => []
  end.

(** The longest prefix of digits, as digit values, and what follows it. *)
Fixpoint span_digits (s : list N) : list N * list N :=
  match s with
  | c :: s' =>
      if is_digit c then
        let '(ds, r) := span_digits s' in (c - 48 :: ds, r)
      else ([], s)
  | [] => ([], [])
  end.

Definition digits_val (acc : N) (ds : list N) : N :=
  fold_left (fun a d => 10 * a + d) ds acc.

(** *** Parsing numbers: [-? int frac? exp?] *)

Definition parse_int (s : list N) : option (N * list N) :=
  match s with
  | c :: s' =>
      if c =? 48 then Some (0, s')
      else if is_digit c then
        let '(ds, r) := span_digits s' in Some (digits_val (c - 48) ds, r)
      else None
  | [] => None
  end.

Definition parse_frac (s : list N) : option (list N * list N) :=
  match s with
  | c :: s' =>
      if c =? 46 then
        match span_digits s' with
        | ([], _) => None
        | (ds, r) => Some (ds, r)
        end
      else Some ([], s)
  | [] => Some ([], [])
  end.

Definition parse_sign (s : list N) : bool * list N :=
  match s with
  | c :: s' =>
      if c =? 45 then (true, s') else if c =? 43 then (false, s') else (false, s)
  | [] => (false, [])
  end.

Definition parse_exp (s : list N) : option (Z * list N) :=
  match s with
  | c :: s' =>
      if (c =? 101) || (c =? 69) then
        let '(neg, s'') := parse_sign s' in
        match span_digits s'' with
        | ([], _) => None
        | (ds, r) => Some (signed neg (digits_val 0 ds), r)
        end
      else Some (0%Z, s)
  | [] => Some (0%Z, [])
  end.

(** A JSON numeral, read as the number it writes, exactly.  The platform
    rounds that number to the nearest double: nothing is rounded when the
    numeral writes a safe integer. *)
Definition parse_number (s : list N) : option (number * list N) :=
  let '(neg, s1) :=
    match s with
    | c :: s' => if c =? 45 then (true, s') else (false, s)
    | [] => (false, [])
    end in
  '(ip, s2) ← parse_int s1;
  '(fs, s3) ← parse_frac s2;
  '(e, s4) ← parse_exp s3;
  Some (make_number neg (digits_val ip fs) (e - Z.of_nat (length fs)), s4).

(** *** Parsing strings *)

Definition hex_val (c : N) : option N :=
  if is_digit c then Some (c - 48)
  else if (97 <=? c) && (c <=? 102) then Some (c - 87)
  else if (65 <=? c) && (c <=? 70) then Some (c - 55)
  else None.

Definition hex4 (h1 h2 h3 h4 : N) : option N :=
  a ← hex_val h1; b ← hex_val h2; c ← hex_val h3; d ← hex_val h4;
  Some (((a * 16 + b) * 16 + c) * 16 + d).

(** The character a one-letter escape stands for. *)
Definition unescape (e : N) : option N :=
  if e =? 34 then Some 34
  else if e =? 92 then Some 92
  else if e =? 47 then Some 47
  else if e =? 98 then Some 8
  else if e =? 102 then Some 12
  else if e =? 110 then Some 10
  else if e =? 114 then Some 13
  else if e =? 116 then Some 9
  else None.

Definition push (c : N) (r : option (list N * list N)) : option (list N * list N) :=
  '(cs, rest) ← r; Some (c :: cs, rest).

(** The characters of a string up to its closing quote (the opening quote
    has been read). *)
Fixpoint parse_chars (s : list N) : option (list N * list N) :=
  match s with
  | [] => None
  | c :: s' =>
      if c =? 34 then Some ([], s')
      else if c =? 92 then
        match s' with
        | [] => None
        | e :: s'' =>
            if e =? 117 then
              match s'' with
              | h1 :: h2 :: h3 :: h4 :: s4 =>
                  match hex4 h1 h2 h3 h4 with
                  | Some u => push u (parse_chars s4)
                  | None => None
                  end
              | _ => None
              end
            else
              match unescape e with
              | Some u => push u (parse_chars s'')
              | None => None
              end
        end
      else if c <? 32 then None
      else push c (parse_chars s')
  end.

(** *** Values *)

Unset Elimination Schemes.
Inductive json :=
| JNull
| JBool (b : bool)
| JNum (x : number)
| JStr (s : list N)
| JArr (l : list json)
| JObj (l : list (list N * json)).
Set Elimination Schemes.

(** [s] starts with the word [w]: what follows it. *)
Fixpoint expect (w s : list N) : option (list N) :=
  match w, s with
  | [], _ => Some s
  | a :: w', c :: s' => if a =? c then expect w' s' else None
  | _ :: _, [] => None
  end.

(** [fuel] bounds the depth of nesting plus the number of elements read;
    the length of the text is enough for every text ([parse_fuel]). *)
Fixpoint parse_value (fuel : nat) (s : list N) : option (json * list N) :=
  match fuel with
  | O => None
  | S n =>
      match s with
      | [] => None
      | c :: s' =>
          if c =? 91 then
            match skip_ws s' with
            | [] => None
            | d :: r =>
                if d =? 93 then Some (JArr [], r)
                else '(l, r') ← parse_elements n (d :: r); Some (JArr l, r')
            end
          else if c =? 123 then
            match skip_ws s' with
            | [] => None
            | d :: r =>
                if d =? 125 then Some (JObj [], r)
                else '(l, r') ← parse_members n (d :: r); Some (JObj l, r')
            end
          else if c =? 34 then
            '(cs, r) ← parse_chars s'; Some (JStr cs, r)
          else if c =? 116 then
            r ← expect (str "rue") s'; Some (JBool true, r)
          else if c =? 102 then
            r ← expect (str "alse") s'; Some (JBool false, r)
          else if c =? 110 then
            r ← expect (str "ull") s'; Some (JNull, r)
          else
            '(x, r) ← parse_number s; Some (JNum x, r)
      end
  end
with parse_elements (fuel : nat) (s : list N) : option (list json * list N) :=
  match fuel with
  | O => None
  | S n =>
      '(v, r) ← parse_value n s;
      match skip_ws r with
      | [] => None
      | d :: r' =>
          if d =? 44 then
            '(l, r'') ← parse_elements n (skip_ws r'); Some (v :: l, r'')
          else if d =? 93 then Some ([v], r')
          else None
      end
  end
with parse_members (fuel : nat) (s : list N) : option (list (list N * json) * list N) :=
  match fuel with
  | O => None
  | S n =>
      match s with
      | [] => None
      | q :: s' =>
          if q =? 34 then
            '(k, r) ← parse_chars s';
            match skip_ws r with
            | [] => None
            | c :: r0 =>
                if c =? 58 then
                  '(v, r1) ← parse_value n (skip_ws r0);
                  match skip_ws r1 with
                  | [] => None
                  | d :: r2 =>
                      if d =? 44 then
                        '(l, r3) ← parse_members n (skip_ws r2);
                        Some ((k, v) :: l, r3)
                      else if d =? 125 then Some ([(k, v)], r2)
                      else None
                  end
                else None
            end
          else None
      end
  end.

(** [JSON.parse(text)]: [None] when it throws a [SyntaxError]. *)
Definition parse (text : list N) : option json :=
  '(v, r) ← parse_value (length text) (skip_ws text);
  match skip_ws r with
  | [] => Some v
  | _ :: _ => None
  end.

(** *** Printing *)

(** The [len] last decimal digits of [n], most significant first. *)
Fixpoint to_digits (len : nat) (n : N) : list N :=
  match len with
  | O => []
  | S l => 48 + (n / 10 ^ N.of_nat l) mod 10 :: to_digits l n
  end.

(** The number of decimal digits of [n] (one for zero). *)
Fixpoint ndigits_aux (fuel : nat) (n : N) : nat :=
  match fuel with
  | O => 1
  | S f => if n <? 10 then 1%nat else S (ndigits_aux f (n / 10))
  end.

Definition ndigits (n : N) : nat := ndigits_aux (N.to_nat (N.log2 n)) n.

Definition print_nat (n : N) : list N := to_digits (ndigits n) n.

(** [Number::toString] on the numbers it writes without an exponent: the
    digits of the number.  This is what the platform writes for a safe
    integer; from 1e21 on it writes an exponent, and for [Infinity], which
    the model does not have, [JSON.stringify] writes [null]. *)
Definition print_number (x : number) : list N :=
  match x with
  | Int z => (if (z <? 0)%Z then [45] else []) ++ print_nat (Z.abs_N z)
  | Dec neg q d k =>
      let m := 10 * q + nzdigit_val d in
      (if neg then [45] else [])
        ++ print_nat (m / 10 ^ N.of_nat (S k))
        ++ [46] ++ to_digits (S k) m
  end.

Definition hex_digit (n : N) : N := if n <? 10 then 48 + n else 87 + n.

Definition unicode_escape (c : N) : list N :=
  [92; 117; hex_digit (c / 4096 mod 16); hex_digit (c / 256 mod 16);
   hex_digit (c / 16 mod 16); hex_digit (c mod 16)].

Definition is_high (c : N) : bool := (55296 <=? c) && (c <=? 56319).
Definition is_low (c : N) : bool := (56320 <=? c) && (c <=? 57343).

(** A code unit that is not a surrogate, as [QuoteJSONString] writes it. *)
Definition quote_unit (c : N) : list N :=
  if c =? 8 then [92; 98]
  else if c =? 9 then [92; 116]
  else if c =? 10 then [92; 110]
  else if c =? 12 then [92; 102]
  else if c =? 13 then [92; 114]
  else if c =? 34 then [92; 34]
  else if c =? 92 then [92; 92]
  else if c <? 32 then unicode_escape c
  else [c].

(** A surrogate pair is written as it is, a lone surrogate is escaped. *)
Fixpoint quote_chars (s : list N) : list N :=
  match s with
  | [] => []
  | c :: s' =>
      if is_high c then
        match s' with
        | d :: s'' =>
            if is_low d then c :: d :: quote_chars s''
            else unicode_escape c ++ quote_chars s'
        | [] => unicode_escape c
        end
      else if is_low c then unicode_escape c ++ quote_chars s'
      else quote_unit c ++ quote_chars s'
  end.

Definition quote (s : list N) : list N := [34] ++ quote_chars s ++ [34].

Definition print_entry (kv : list N * number) : list N :=
  [91] ++ quote kv.1 ++ [44] ++ print_number kv.2 ++ [93].

Fixpoint print_entries (l : list (list N * number)) : list N :=
  match l with
  | [] => []
  | [kv] => print_entry kv
  | kv :: l' => print_entry kv ++ [44] ++ print_entries l'
  end.

(** [JSON.stringify(entries)] for an array of [[string, number]] pairs. *)
Definition stringify (entries : list (list N * number)) : list N :=
  [91] ++ print_entries entries ++ [93].

(** *** What the lemmas on the parser speak of *)

(** No digit comes next. *)
Definition no_digit (rest : list N) : Prop :=
  match rest with
  | c :: _ => is_digit c = false
  | [] => True
  end.

(** What may follow a number: no digit, no dot, no exponent mark. *)
Definition ends_number (rest : list N) : Prop :=
  match rest with
  | c :: _ => is_digit c = false /\ c <> 46 /\ c <> 101 /\ c <> 69
  | [] => True
  end.

(** [parse_number] once the sign has been read. *)
Definition parse_unsigned (neg : bool) (s1 : list N) : option (number * list N) :=
  '(ip, s2) ← parse_int s1;
  '(fs, s3) ← parse_frac s2;
  '(e, s4) ← parse_exp s3;
  Some (make_number neg (digits_val ip fs) (e - Z.of_nat (length fs)), s4).

(** [parse] with any fuel in place of the length of the text. *)
Definition parse_with (fuel : nat) (text : list N) : option json :=
  '(v, r) ← parse_value fuel (skip_ws text);
  match skip_ws r with
  | [] => Some v
  | _ :: _ => None
  end.

(** More fuel gives the same result. *)
Definition mono_at (n : nat) : Prop :=
  (forall s v r, parse_value n s = Some (v, r) -> parse_value (S n) s = Some (v, r))
  /\ (forall s l r,
        parse_elements n s = Some (l, r) -> parse_elements (S n) s = Some (l, r))
  /\ (forall s l r,
        parse_members n s = Some (l, r) -> parse_members (S n) s = Some (l, r)).

(** What is parsed with some fuel is parsed with as much fuel as code units
    are read. *)
Definition enough_at (n : nat) : Prop :=
  (forall s v r,
     parse_value n s = Some (v, r) ->
     (length r < length s)%nat
     /\ parse_value (length s - length r)%nat s = Some (v, r))
  /\ (forall s l r,
        parse_elements n s = Some (l, r) ->
        (length r < length s)%nat
        /\ parse_elements (length s - length r)%nat s = Some (l, r))
  /\ (forall s l r,
        parse_members n s = Some (l, r) ->
        (length r < length s)%nat
        /\ parse_members (length s - length r)%nat s = Some (l, r)).

(** An entry of the ledger as a JSON value. *)
Definition entry_json (kv : list N * number) : json :=
  JArr [JStr kv.1; JNum kv.2].

End JSON.

(** ** JS [Map<string, number>]: the entries in insertion order *)

Module Map.

Abbreviation t := (list (list N * JSON.number)).

Fixpoint get (key : list N) (m : t) : option JSON.number :=
  match m with
  | [] => None
  | (k, v) :: m' => if decide (key = k) then Some v else get key m'
  end.

(** An existing key keeps its place, a new one goes last. *)
Fixpoint set (key : list N) (value : JSON.number) (m : t) : t :=
  match m with
  | [] => [(key, value)]
  | (k, v) :: m' =>
      if decide (key = k) then (k, value) :: m' else (k, v) :: set key value m'
  end.

Fixpoint delete (key : list N) (m : t) : t :=
  match m with
  | [] => []
  | (k, v) :: m' => if decide (key = k) then m' else (k, v) :: delete key m'
  end.

(** [new Map(iterable)] sets the entries one after the other. *)
Definition of_entries (entries : list (list N * JSON.number)) : t :=
  fold_left (fun m kv => set kv.1 kv.2 m) entries [].

(** [[...m.entries()]] *)
Definition entries (m : t) : list (list N * JSON.number) := m.

(** Every key occurs once: what holds of every JS [Map]. *)
Definition ok (m : t) : Prop := NoDup m.*1.

End Map.

(** ** The page: session storage, console, reloads, calls of the loader *)

(** [sessionStorage] outlives a reload of the page.  The three other fields
    record what happened: the values given to [console.error], the number
    of calls of [window.location.reload], and the number of calls of the
    import function. *)

Inductive Logged {Error : Type} :=
| LoadError (error : Error)
| SyntaxError (text : list N).
Arguments Logged : clear implicits.

Record World {Error : Type} := mkWorld {
  sessionStorage : gmap (list N) (list N);
  console : list (Logged Error);
  reloads : nat;
  calls : nat
}.
Arguments World : clear implicits.
Arguments mkWorld {Error}.

(** A promise that has settled. *)
Inductive Settled {Error A : Type} :=
| Fulfilled (value : A)
| Rejected (error : Error).
Arguments Settled : clear implicits.

(** A module object [{ default: Component }]; [NullModule] is
    [{ default: () => null }]. *)
Inductive ModuleObject {Component : Type} :=
| Default (component : Component)
| NullModule.
Arguments ModuleObject : clear implicits.

(** An import function: its source text, and what its [i]-th call (from 0)
    settles to. *)
Record ImportFunction {Component Error : Type} := {
  toString : list N;
  call : nat -> Settled Error (ModuleObject Component)
}.
Arguments ImportFunction : clear implicits.

(** State passing over the page. *)
Definition M (Error A : Type) : Type := World Error -> A * World Error.

Definition ret {Error A} (a : A) : M Error A := fun w => (a, w).

Definition bind {Error A B} (m : M Error A) (k : A -> M Error B) : M Error B :=
  fun w => let '(a, w') := m w in k a w'.

Declare Scope page_scope.
Delimit Scope page_scope with page.
Notation "'let*' x ':=' m 'in' k" := (bind m (fun x => k))
  (at level 10, x binder, m at level 100, k at level 200) : page_scope.

Section Page.
Context {Error : Type}.

Definition getItem (key : list N) : M Error (option (list N)) :=
  fun w => (sessionStorage w !! key, w).

Definition setItem (key value : list N) : M Error unit :=
  fun w => (tt, mkWorld (<[key := value]> (sessionStorage w)) (console w) (reloads w) (calls w)).

Definition console_error (x : Logged Error) : M Error unit :=
  fun w => (tt, mkWorld (sessionStorage w) (console w ++ [x]) (reloads w) (calls w)).

Definition location_reload : M Error unit :=
  fun w => (tt, mkWorld (sessionStorage w) (console w) (S (reloads w)) (calls w)).

End Page.

(** ** src/index.ts *)

Definition defaultStorageKey : list N := str "forceReloadedImportFunctions".

(** *** class ForceReloadStorage *)

Record ForceReloadStorage := { storageKey : list N }.

(** [constructor(public readonly storageKey = defaultStorageKey)] *)
Definition new_ForceReloadStorage (storageKey : option (list N)) : ForceReloadStorage :=
  {| storageKey := default defaultStorageKey storageKey |}.

(** The test of the filter in [getMap]. *)
Definition is_entry (value : JSON.json) : bool :=
  match value with
  | JSON.JArr a =>
      match a !! 0%nat, a !! 1%nat with
      | Some (JSON.JStr _), Some (JSON.JNum _) => true
      | _, _ => false
      end
  | _ => false
  end.

(** What [new Map] reads of an item: [item[0]] and [item[1]]. *)
Definition key_value (item : JSON.json) : option (list N * JSON.number) :=
  match item with
  | JSON.JArr (JSON.JStr k :: JSON.JNum v :: _) => Some (k, v)
  | _ => None
  end.

Section Source.
Context {Component Error : Type}.

Local Open Scope page_scope.

Abbreviation M := (M Error).

(** [stored ? JSON.parse(stored) : {}]: the empty string is falsy. *)
Definition parse_stored (stored : option (list N)) : option JSON.json :=
  match stored with
  | None | Some [] => Some (JSON.JObj [])
  | Some text => JSON.parse text
  end.

Definition getMap (this : ForceReloadStorage) : M Map.t :=
  let* stored := getItem (storageKey this) in
  match parse_stored stored with
  | Some parsed =>
      ret (Map.of_entries
             match parsed with
             | JSON.JArr a => omap key_value (filter is_entry a)
             | _ => []
             end)
  | None =>
      let* _ := console_error (SyntaxError (default [] stored)) in
      ret []
  end.

Definition save (this : ForceReloadStorage) (stored : Map.t) : M unit :=
  setItem (storageKey this) (JSON.stringify (Map.entries stored)).

Definition addFunction (this : ForceReloadStorage) (functionName : list N) : M unit :=
  let* stored := getMap this in
  save this
    (Map.set functionName
       (JSON.succ (default (JSON.Int 0) (Map.get functionName stored))) stored).

Definition removeFunction (this : ForceReloadStorage) (functionName : list N) : M unit :=
  let* stored := getMap this in
  save this (Map.delete functionName stored).

(** *** Configuration *)

(** [Partial<ForceReloadConfig>].  [Partial] makes [maxRetries] the optional
    property [maxRetries?: number], which an object may leave out
    ([None]) or hold with the value [undefined] ([Some None]) or a number
    ([Some (Some n)]): the object spread of [createConfig] tells the three
    apart.  For [storageKey] a property left out and one that is [undefined]
    come to the same, the constructor of the ledger taking its default for
    both: [None] is either. *)
Record PartialForceReloadConfig := {
  init_maxRetries : option (option Z);
  init_storageKey : option (list N)
}.

(** [false | Partial<ForceReloadConfig>] *)
Inductive ForceReloadInit :=
| ForceReloadOff
| ForceReloadWith (partial : PartialForceReloadConfig).

Record SafeLazyConfigInit := {
  init_forceReload : option ForceReloadInit;
  init_importRetries : option Z
}.

(** [ForceReloadConfig] as [createConfig] builds it: [maxRetries] is a
    number, or [undefined] ([None]) when the spread copied that over the
    default. *)
Record ForceReloadConfig := {
  maxRetries : option Z;
  config_storageKey : option (list N)
}.

Record SafeLazyConfig := {
  forceReload : ForceReloadConfig;
  importRetries : Z
}.

(** [forceReload] is [{ maxRetries: 1, ...spread }], where the object
    spread is [init.forceReload] when that is an object, [{ maxRetries: 0 }]
    when it is [false], and nothing otherwise.  The spread copies every own
    property of its object, one whose value is [undefined] too: only a
    [maxRetries] left out keeps the 1. *)
Definition createConfig (init : SafeLazyConfigInit) : SafeLazyConfig :=
  {| forceReload :=
       match init_forceReload init with
       | Some (ForceReloadWith partial) =>
           {| maxRetries := default (Some 1%Z) (init_maxRetries partial);
              config_storageKey := init_storageKey partial |}
       | Some ForceReloadOff =>
           {| maxRetries := Some 0%Z; config_storageKey := None |}
       | None =>
           {| maxRetries := Some 1%Z; config_storageKey := None |}
       end;
     importRetries := default 0%Z (init_importRetries init) |}.

(** [count < forceReload.maxRetries].  An [undefined] limit is converted to
    NaN, and a comparison with NaN is false. *)
Definition less_than (count : JSON.number) (limit : option Z) : bool :=
  match limit with
  | Some m => JSON.ltb count (JSON.Int m)
  | None => false
  end.

(** [forceReload.maxRetries > 0], false for [undefined] likewise. *)
Definition greater_than_0 (limit : option Z) : bool :=
  match limit with
  | Some m => bool_decide (m > 0)%Z
  | None => false
  end.

(** [createSafeLazy()] and [createSafeLazy({})] *)
Definition no_init : SafeLazyConfigInit :=
  {| init_forceReload := None; init_importRetries := None |}.

(** *** createSafeLazy *)

(** What the closure [safeLazy] captures. *)
Record SafeLazy := {
  sl_forceReload : ForceReloadConfig;
  sl_importRetries : Z;
  reloadStorage : ForceReloadStorage
}.

Definition createSafeLazy (config : SafeLazyConfigInit) : SafeLazy :=
  let c := createConfig config in
  {| sl_forceReload := forceReload c;
     sl_importRetries := importRetries c;
     reloadStorage := new_ForceReloadStorage (config_storageKey (forceReload c)) |}.

Abbreviation ImportFunction := (ImportFunction Component Error).
Abbreviation Result := (Settled Error (ModuleObject Component)).

(** [await importFunction()] *)
Definition invoke (importFunction : ImportFunction) : M Result :=
  fun w =>
    (call importFunction (calls w),
     mkWorld (sessionStorage w) (console w) (reloads w) (S (calls w))).

#[local] Unset Equations With Funext.

(** [tryImport], with the variable [retried] it shares with its recursive
    calls passed along. *)
Equations? tryImport (importRetries : Z) (importFunction : ImportFunction)
    (retried : Z) (w : World Error) : Result * Z * World Error
    by wf (Z.to_nat (importRetries - retried)) lt :=
  tryImport importRetries importFunction retried w
    with invoke importFunction w => {
    | (Fulfilled module, w1) => (Fulfilled module, retried, w1);
    | (Rejected error, w1) with console_error (LoadError error) w1 => {
      | (_, w2) with decide (retried < importRetries)%Z => {
        | left _ => tryImport importRetries importFunction (retried + 1) w2;
        | right _ => (Rejected error, retried, w2) } } }.
Proof. lia. Qed.

(** The [catch] block of the function given to [lazy]. *)
Definition onLoadError (sl : SafeLazy) (functionString : list N) (error : Error)
    : M Result :=
  let* stored := getMap (reloadStorage sl) in
  if less_than (default (JSON.Int 0) (Map.get functionString stored))
               (maxRetries (sl_forceReload sl))
  then
    let* _ := addFunction (reloadStorage sl) functionString in
    let* _ := location_reload in
    ret (Fulfilled NullModule)
  else ret (Rejected error).

(** The function given to [lazy]: React calls it once, when the component
    is first rendered, so [retried] is 0 when it starts. *)
Definition load (sl : SafeLazy) (importFunction : ImportFunction) : M Result :=
  let functionString := toString importFunction in
  fun w =>
    match tryImport (sl_importRetries sl) importFunction 0 w with
    | (Fulfilled component, _, w1) =>
        (let* _ :=
           if greater_than_0 (maxRetries (sl_forceReload sl))
           then removeFunction (reloadStorage sl) functionString
           else ret tt in
         ret (Fulfilled component)) w1
    | (Rejected error, _, w1) => onLoadError sl functionString error w1
    end.

(** [lazy(...)] of [safeLazy(importFunction)], rendered for the first time. *)
Definition safeLazy (sl : SafeLazy) (importFunction : ImportFunction) : M Result :=
  load sl importFunction.

(** The page loaded [n] times in a row, the component rendered once on each:
    the results, the first load first. *)
Fixpoint renders (n : nat) (sl : SafeLazy) (importFunction : ImportFunction)
    : M (list Result) :=
  match n with
  | O => ret []
  | S n' =>
      let* r := safeLazy sl importFunction in
      let* rs := renders n' sl importFunction in
      ret (r :: rs)
  end.

(** ** What the statements below speak of *)

(** What [getMap] makes of a stored text. *)
Definition read_text (stored : option (list N)) : Map.t :=
  match parse_stored stored with
  | Some (JSON.JArr a) => Map.of_entries (omap key_value (filter is_entry a))
  | _ => []
  end.

(** The mapping a read of the ledger gives on a page. *)
Definition ledger (this : ForceReloadStorage) (w : World Error) : Map.t :=
  (getMap this w).1.

(** The count of a key: [stored.get(key) ?? 0]. *)
Definition count (this : ForceReloadStorage) (w : World Error) (key : list N)
    : JSON.number :=
  default (JSON.Int 0) (Map.get key (ledger this w)).

(** A well-formed mapping: every count is a safe integer. *)
Definition well_formed (m : Map.t) : Prop :=
  Forall (fun entry => JSON.safe entry.2 = true) m.

(** Every count of the mapping is an integer not below [lo]. *)
Definition counts_from (lo : Z) (m : Map.t) : Prop :=
  Forall (fun kv => exists z, kv.2 = JSON.Int z /\ (lo <= z)%Z) m.

(** The operations of the ledger that write. *)
Inductive Operation :=
| Increment (key : list N)
| Remove (key : list N).

Definition perform (this : ForceReloadStorage) (op : Operation) : M unit :=
  match op with
  | Increment key => addFunction this key
  | Remove key => removeFunction this key
  end.

Fixpoint perform_all (this : ForceReloadStorage) (ops : list Operation)
    (w : World Error) : World Error :=
  match ops with
  | [] => w
  | op :: ops' => perform_all this ops' (perform this op w).2
  end.


(** What [console.error] is given for the calls [start], ..., [start + len - 1]
    of the import function: the errors of those that are rejected. *)
Definition rejections (importFunction : ImportFunction)
    (start len : nat) : list (Logged Error) :=
  omap (fun i =>
          match call importFunction i with
          | Rejected error => Some (LoadError error)
          | Fulfilled _ => None
          end)
       (seq start len).

End Source.

(** ** The pages and loaders of the test suite *)

(** A session that has just started. *)
Definition fresh : World string := mkWorld ∅ [] 0 0.

(** A session with [text] under the default key. *)
Definition with_stored (text : list N) : World string :=
  mkWorld {[ defaultStorageKey := text ]} [] 0 0.

Definition source : list N := str "() => import('./Component')".

(** [vi.fn().mockRejectedValue(new Error('Failed to load component'))] *)
Definition failing : ImportFunction string string :=
  {| toString := source;
     call := fun _ => Rejected "Failed to load component"%string |}.

(** A loader whose first [k] calls fail and whose later calls succeed. *)
Definition failing_until (k : nat) : ImportFunction string string :=
  {| toString := source;
     call := fun i =>
       if (i <? k)%nat then Rejected "Failed to load component"%string
       else Fulfilled (Default "Component"%string) |}.

(** [createSafeLazy({ forceReload, importRetries })] *)
Definition factory (forceReload : option ForceReloadInit)
    (importRetries : option Z) : SafeLazy :=
  createSafeLazy
    {| init_forceReload := forceReload; init_importRetries := importRetries |}.

(** [{ maxRetries }] *)
Definition limit (maxRetries : Z) : option ForceReloadInit :=
  Some (ForceReloadWith
          {| init_maxRetries := Some (Some maxRetries); init_storageKey := None |}).

(** The ledger of the default key. *)
Definition default_ledger : ForceReloadStorage := new_ForceReloadStorage None.

(** * Proofs *)

Ltac Zify.zify_post_hook ::= Z.to_euclidean_division_equations.

Module JSONFacts.
Import JSON.

Lemma is_digit_spec c : is_digit c = true <-> 48 <= c <= 57.
Proof. unfold is_digit. rewrite andb_true_iff, !N.leb_le. tauto. Qed.

Lemma is_digit_add d : d < 10 -> is_digit (48 + d) = true.
Proof. intros. apply is_digit_spec. lia. Qed.

Lemma mod10_lt n : n mod 10 < 10.
Proof. apply N.mod_upper_bound. lia. Qed.

Lemma add48_sub d : 48 + d - 48 = d.
Proof. lia. Qed.

Lemma span_to_digits len n rest :
  no_digit rest ->
  span_digits (to_digits len n ++ rest)
  = (map (fun c => c - 48) (to_digits len n), rest).
Proof.
  intros Hrest. induction len as [|l IH]; simpl.
  - destruct rest as [|c r]; simpl in *; [done|]. by rewrite Hrest.
  - rewrite is_digit_add by apply mod10_lt. by rewrite IH.
Qed.

Lemma digits_val_to_digits len n a :
  digits_val a (map (fun c => c - 48) (to_digits len n))
  = a * 10 ^ N.of_nat len + n mod 10 ^ N.of_nat len.
Proof.
  revert a. induction len as [|l IH]; intros a.
  - simpl. rewrite N.mod_1_r. lia.
  - cbn [to_digits map digits_val fold_left]. fold (digits_val (10 * a + (48 + (n / 10 ^ N.of_nat l) mod 10 - 48)) (map (fun c => c - 48) (to_digits l n))).
    rewrite IH. rewrite Nat2N.inj_succ, N.pow_succ_r'.
    rewrite (N.mul_comm 10 (10 ^ _)).
    rewrite N.Div0.mod_mul_r.
    rewrite add48_sub. ring.
Qed.

Lemma ndigits_aux_spec fuel n :
  n < 2 ^ N.of_nat (S fuel) ->
  n < 10 ^ N.of_nat (ndigits_aux fuel n)
  /\ (n <> 0 -> 10 ^ N.of_nat (pred (ndigits_aux fuel n)) <= n).
Proof.
  revert n. induction fuel as [|f IH]; intros n Hn.
  - simpl in *. change (2 ^ 1) with 2 in Hn. split; [change (10 ^ 1) with 10; lia|].
    intros. change (10 ^ 0) with 1. lia.
  - cbn [ndigits_aux]. destruct (N.ltb_spec n 10) as [Hlt|Hge].
    + split; [change (10 ^ N.of_nat 1) with 10; lia|].
      intros. change (10 ^ N.of_nat (pred 1)) with 1. lia.
    + assert (Hdiv : n / 10 < 2 ^ N.of_nat (S f)).
      { apply N.Div0.div_lt_upper_bound.
        rewrite (Nat2N.inj_succ (S f)), N.pow_succ_r' in Hn. lia. }
      destruct (IH _ Hdiv) as [Hup Hlow].
      assert (Hnz : n / 10 <> 0).
      { intros H0. apply N.div_small_iff in H0; lia. }
      specialize (Hlow Hnz).
      pose proof (N.Div0.div_mod n 10) as Hdm.
      pose proof (mod10_lt n).
      split.
      * rewrite Nat2N.inj_succ, N.pow_succ_r'.
        revert Hup. generalize (10 ^ N.of_nat (ndigits_aux f (n / 10))). lia.
      * intros _. cbn [pred].
        destruct (ndigits_aux f (n / 10)) as [|k] eqn:Ek.
        { change (10 ^ N.of_nat 0) with 1 in Hup. lia. }
        cbn [pred] in Hlow. rewrite Nat2N.inj_succ, N.pow_succ_r'.
        revert Hlow. generalize (10 ^ N.of_nat k). lia.
Qed.

Lemma log2_fuel n : n < 2 ^ N.of_nat (S (N.to_nat (N.log2 n))).
Proof.
  rewrite Nat2N.inj_succ, N2Nat.id.
  destruct (N.eq_dec n 0) as [->|Hn]; [done|].
  apply N.log2_spec. lia.
Qed.

Lemma ndigits_upper n : n < 10 ^ N.of_nat (ndigits n).
Proof. apply ndigits_aux_spec, log2_fuel. Qed.

Lemma ndigits_lower n : n <> 0 -> 10 ^ N.of_nat (pred (ndigits n)) <= n.
Proof. apply ndigits_aux_spec, log2_fuel. Qed.

Lemma ndigits_pos n : exists l, ndigits n = S l.
Proof.
  unfold ndigits. destruct (N.to_nat (N.log2 n)); simpl; [eauto|].
  destruct (n <? 10); eauto.
Qed.

(** Reading back the integer part of a number. *)
Lemma parse_int_print_nat n rest :
  no_digit rest -> parse_int (print_nat n ++ rest) = Some (n, rest).
Proof.
  intros Hrest. unfold print_nat.
  destruct (ndigits_pos n) as [l Hl].
  pose proof (ndigits_upper n) as Hup. rewrite Hl in *.
  cbn [to_digits app parse_int].
  assert (Hlead : n / 10 ^ N.of_nat l < 10).
  { apply N.Div0.div_lt_upper_bound.
    rewrite Nat2N.inj_succ, N.pow_succ_r' in Hup. lia. }
  rewrite (N.mod_small _ _ Hlead).
  destruct (N.eq_dec n 0) as [->|Hn].
  - assert (l = 0%nat) as -> by (vm_compute in Hl; congruence).
    reflexivity.
  - pose proof (ndigits_lower n Hn) as Hlow. rewrite Hl in Hlow. cbn [pred] in Hlow.
    assert (1 <= n / 10 ^ N.of_nat l).
    { apply N.div_le_lower_bound; [apply N.pow_nonzero; lia | lia]. }
    destruct (N.eqb_spec (48 + n / 10 ^ N.of_nat l) 48) as [?|_]; [lia|].
    rewrite is_digit_add by done.
    rewrite span_to_digits by done.
    rewrite digits_val_to_digits.
    rewrite add48_sub.
    f_equal. f_equal.
    rewrite (N.Div0.div_mod n (10 ^ N.of_nat l)) at 3. lia.
Qed.



Lemma ends_number_no_digit rest : ends_number rest -> no_digit rest.
Proof. destruct rest; simpl; tauto. Qed.

Lemma parse_number_minus s : parse_number (45 :: s) = parse_unsigned true s.
Proof. reflexivity. Qed.

Lemma parse_number_digit d s :
  d < 10 -> parse_number (48 + d :: s) = parse_unsigned false (48 + d :: s).
Proof.
  intros. unfold parse_number.
  destruct (N.eqb_spec (48 + d) 45); [lia | reflexivity].
Qed.

Lemma print_nat_head n : exists d tl, d < 10 /\ print_nat n = 48 + d :: tl.
Proof.
  unfold print_nat. destruct (ndigits_pos n) as [l ->]. cbn [to_digits].
  eexists _, _. split; [|reflexivity]. apply mod10_lt.
Qed.

Lemma parse_frac_none rest : ends_number rest -> parse_frac rest = Some ([], rest).
Proof.
  destruct rest as [|c r]; [done|]. intros (_ & H & _). simpl.
  by destruct (N.eqb_spec c 46).
Qed.

Lemma parse_exp_none rest : ends_number rest -> parse_exp rest = Some (0%Z, rest).
Proof.
  destruct rest as [|c r]; [done|]. intros (_ & _ & H1 & H2). simpl.
  destruct (N.eqb_spec c 101); [done|]. by destruct (N.eqb_spec c 69).
Qed.

Lemma parse_unsigned_int neg n rest :
  ends_number rest ->
  parse_unsigned neg (print_nat n ++ rest) = Some (Int (signed neg n), rest).
Proof.
  intros Hrest. unfold parse_unsigned.
  rewrite parse_int_print_nat by by apply ends_number_no_digit.
  cbn [mbind option_bind]. rewrite parse_frac_none by done.
  cbn [mbind option_bind]. rewrite parse_exp_none by done.
  cbn [mbind option_bind]. unfold make_number. simpl. by rewrite Z.mul_1_r.
Qed.

Lemma nzdigit_of_val d : nzdigit_of (nzdigit_val d) = Some d.
Proof. by destruct d. Qed.

Lemma nzdigit_val_lt d : nzdigit_val d < 10.
Proof. by destruct d. Qed.

Lemma parse_unsigned_dec neg q d k rest :
  ends_number rest ->
  parse_unsigned neg
    (print_nat ((10 * q + nzdigit_val d) / 10 ^ N.of_nat (S k))
       ++ [46] ++ to_digits (S k) (10 * q + nzdigit_val d) ++ rest)
  = Some (Dec neg q d k, rest).
Proof.
  intros Hrest. unfold parse_unsigned.
  rewrite parse_int_print_nat by done.
  cbn [app parse_frac mbind option_bind]. change (46 =? 46) with true. cbv iota.
  rewrite span_to_digits by by apply ends_number_no_digit.
  cbn [to_digits map]. cbn [mbind option_bind].
  rewrite parse_exp_none by done. cbn [mbind option_bind].
  do 2 f_equal.
  change (48 + _ - 48 :: map _ _) with
    (map (fun c => c - 48) (to_digits (S k) (10 * q + nzdigit_val d))).
  rewrite digits_val_to_digits, length_map.
  assert (Hlen : length (to_digits (S k) (10 * q + nzdigit_val d)) = S k).
  { generalize (S k) (10 * q + nzdigit_val d). clear.
    intros l n. induction l; simpl; congruence. }
  rewrite Hlen.
  rewrite (N.mul_comm _ (10 ^ _)), <- N.Div0.div_mod.
  unfold make_number.
  destruct (Z.leb_spec 0 (0 - Z.of_nat (S k))); [lia|].
  replace (Z.to_nat (- (0 - Z.of_nat (S k)))) with (S k) by lia.
  cbn [strip].
  pose proof (nzdigit_val_lt d) as Hd.
  assert ((10 * q + nzdigit_val d) mod 10 = nzdigit_val d) as -> by (clear -Hd; lia).
  assert ((10 * q + nzdigit_val d) / 10 = q) as -> by (clear -Hd; lia).
  by rewrite nzdigit_of_val.
Qed.

(** A number is read back from its text. *)
Lemma parse_print_number x rest :
  ends_number rest -> parse_number (print_number x ++ rest) = Some (x, rest).
Proof.
  intros Hrest. destruct x as [z | neg q d k]; cbn [print_number].
  - destruct (Z.ltb_spec z 0).
    + cbn [app]. rewrite parse_number_minus, parse_unsigned_int by done.
      do 3 f_equal. unfold signed. lia.
    + cbn [app]. destruct (print_nat_head (Z.abs_N z)) as (d & tl & Hd & Heq).
      rewrite Heq. cbn [app]. rewrite parse_number_digit by done.
      change (48 + d :: tl ++ rest) with ((48 + d :: tl) ++ rest).
      rewrite <- Heq, parse_unsigned_int by done.
      do 3 f_equal. unfold signed. lia.
  - rewrite <- !app_assoc. destruct neg.
    + cbn [app]. rewrite parse_number_minus.
      by rewrite <- parse_unsigned_dec.
    + cbn [app].
      destruct (print_nat_head ((10 * q + nzdigit_val d) / 10 ^ N.of_nat (S k)))
        as (d0 & tl & Hd & Heq).
      rewrite Heq. cbn [app]. rewrite parse_number_digit by done.
      rewrite <- (parse_unsigned_dec false q d k rest) by done.
      by rewrite Heq.
Qed.

Lemma print_number_head x :
  exists c tl, print_number x = c :: tl /\ (c = 45 \/ is_digit c = true).
Proof.
  destruct x as [z | neg q d k]; cbn [print_number].
  - destruct (Z.ltb_spec z 0); [by eexists _, _; eauto|].
    destruct (print_nat_head (Z.abs_N z)) as (d & tl & Hd & ->).
    eexists _, _. split; [done|]. right. by apply is_digit_add.
  - destruct neg; [by eexists _, _; eauto|].
    destruct (print_nat_head ((10 * q + nzdigit_val d) / 10 ^ N.of_nat (S k)))
      as (d0 & tl & Hd & ->).
    eexists _, _. split; [done|]. right. by apply is_digit_add.
Qed.


(** *** Strings *)

Lemma hex_val_digit n : n < 16 -> hex_val (hex_digit n) = Some n.
Proof.
  intros Hn. unfold hex_digit, hex_val, is_digit.
  destruct (N.ltb_spec n 10).
  - destruct (N.leb_spec 48 (48 + n)); [|lia].
    destruct (N.leb_spec (48 + n) 57); [|lia].
    simpl. f_equal. lia.
  - destruct (N.leb_spec (87 + n) 57); [lia|]. rewrite andb_false_r.
    destruct (N.leb_spec 97 (87 + n)); [|lia].
    destruct (N.leb_spec (87 + n) 102); [|lia].
    simpl. f_equal. lia.
Qed.

Lemma hex4_escape c :
  c < 65536 ->
  hex4 (hex_digit (c / 4096 mod 16)) (hex_digit (c / 256 mod 16))
       (hex_digit (c / 16 mod 16)) (hex_digit (c mod 16)) = Some c.
Proof.
  intros Hc. unfold hex4.
  rewrite !hex_val_digit by (apply N.mod_upper_bound; lia).
  cbn [mbind option_bind]. f_equal. lia.
Qed.

Lemma parse_chars_escape c s :
  c < 65536 ->
  parse_chars (unicode_escape c ++ s) = push c (parse_chars s).
Proof.
  intros Hc. unfold unicode_escape. cbn [app parse_chars].
  change (92 =? 34) with false. change (92 =? 92) with true.
  change (117 =? 117) with true. cbv iota.
  by rewrite hex4_escape.
Qed.

Lemma parse_chars_plain c s :
  c <> 34 -> c <> 92 -> 32 <= c ->
  parse_chars (c :: s) = push c (parse_chars s).
Proof.
  intros H1 H2 H3. cbn [parse_chars].
  destruct (N.eqb_spec c 34); [done|]. destruct (N.eqb_spec c 92); [done|].
  destruct (N.ltb_spec c 32); [lia|done].
Qed.

Lemma parse_chars_unit c s :
  parse_chars (quote_unit c ++ s) = push c (parse_chars s).
Proof.
  unfold quote_unit.
  repeat match goal with
  | |- context [N.eqb c ?k] => destruct (N.eqb_spec c k) as [->|?]; [reflexivity|]
  end.
  destruct (N.ltb_spec c 32).
  - apply parse_chars_escape. lia.
  - by apply parse_chars_plain.
Qed.

Lemma is_high_spec c : is_high c = true <-> 55296 <= c <= 56319.
Proof. unfold is_high. rewrite andb_true_iff, !N.leb_le. tauto. Qed.

Lemma is_low_spec c : is_low c = true <-> 56320 <= c <= 57343.
Proof. unfold is_low. rewrite andb_true_iff, !N.leb_le. tauto. Qed.

Lemma parse_quote_chars_bounded n s rest :
  (length s <= n)%nat ->
  parse_chars (quote_chars s ++ 34 :: rest) = Some (s, rest).
Proof.
  revert s. induction n as [|n IH]; intros s Hlen.
  { destruct s; [reflexivity | simpl in Hlen; lia]. }
  destruct s as [|c s']; [reflexivity|]. simpl in Hlen.
  assert (IH' : parse_chars (quote_chars s' ++ 34 :: rest) = Some (s', rest))
    by (apply IH; lia).
  cbn [quote_chars].
  destruct (is_high c) eqn:Hhigh.
  - apply is_high_spec in Hhigh.
    destruct s' as [|d s'']; [|destruct (is_low d) eqn:Hlow].
    + rewrite parse_chars_escape by lia. reflexivity.
    + apply is_low_spec in Hlow.
      cbn [app]. rewrite !parse_chars_plain by lia.
      rewrite IH by (simpl in Hlen; lia). reflexivity.
    + rewrite <- app_assoc, parse_chars_escape by lia. by rewrite IH'.
  - destruct (is_low c) eqn:Hlow.
    + apply is_low_spec in Hlow.
      rewrite <- app_assoc, parse_chars_escape by lia. by rewrite IH'.
    + rewrite <- app_assoc, parse_chars_unit. by rewrite IH'.
Qed.

(** A string is read back from its quoted text. *)
Lemma parse_quote_chars s rest :
  parse_chars (quote_chars s ++ 34 :: rest) = Some (s, rest).
Proof. by apply (parse_quote_chars_bounded (length s)). Qed.

(** *** Entries *)

Lemma ends_number_bracket rest : ends_number (93 :: rest).
Proof. by repeat split. Qed.

(** The text of a number starts a number, and nothing else. *)
Lemma parse_value_number fuel x rest :
  ends_number rest ->
  parse_value (S fuel) (print_number x ++ rest) = Some (JNum x, rest).
Proof.
  intros Hrest. pose proof (parse_print_number x rest Hrest) as Hparse.
  destruct (print_number_head x) as (c & tl & Heq & Hc).
  rewrite Heq in *. cbn [app] in *. cbn [parse_value].
  assert (Hrange : c = 45 \/ 48 <= c <= 57).
  { destruct Hc as [->|Hc]; [by left | right; by apply is_digit_spec]. }
  repeat match goal with
  | |- context [N.eqb c ?k] => destruct (N.eqb_spec c k) as [?|_]; [lia|]
  end.
  by rewrite Hparse.
Qed.

Lemma skip_ws_number x rest :
  skip_ws (print_number x ++ rest) = print_number x ++ rest.
Proof.
  destruct (print_number_head x) as (c & tl & -> & Hc). cbn [app skip_ws].
  assert (Hrange : c = 45 \/ 48 <= c <= 57).
  { destruct Hc as [->|Hc]; [by left | right; by apply is_digit_spec]. }
  unfold is_ws.
  repeat match goal with
  | |- context [N.eqb c ?k] => destruct (N.eqb_spec c k) as [?|_]; [lia|]
  end.
  reflexivity.
Qed.

Lemma parse_value_array n s :
  parse_value (S n) (91 :: s)
  = match skip_ws s with
    | [] => None
    | d :: r =>
        if d =? 93 then Some (JArr [], r)
        else '(l, r') ← parse_elements n (d :: r); Some (JArr l, r')
    end.
Proof. reflexivity. Qed.

Lemma parse_value_string n s :
  parse_value (S n) (34 :: s) = '(cs, r) ← parse_chars s; Some (JStr cs, r).
Proof. reflexivity. Qed.

Lemma parse_elements_S n s :
  parse_elements (S n) s
  = '(v, r) ← parse_value n s;
    match skip_ws r with
    | [] => None
    | d :: r' =>
        if d =? 44 then
          '(l, r'') ← parse_elements n (skip_ws r'); Some (v :: l, r'')
        else if d =? 93 then Some ([v], r')
        else None
    end.
Proof. reflexivity. Qed.

Lemma parse_value_entry fuel kv rest :
  parse_value (S (S (S (S fuel)))) (print_entry kv ++ rest)
  = Some (entry_json kv, rest).
Proof.
  destruct kv as [k v]. unfold print_entry, quote. cbn [fst snd].
  rewrite <- !app_assoc. cbn [app].
  rewrite parse_value_array. cbn [skip_ws]. change (is_ws 34) with false. cbv iota.
  change (34 =? 93) with false. cbv iota.
  rewrite parse_elements_S, parse_value_string, parse_quote_chars.
  cbn [mbind option_bind skip_ws]. change (is_ws 44) with false. cbv iota.
  change (44 =? 44) with true. cbv iota.
  rewrite skip_ws_number, parse_elements_S.
  rewrite parse_value_number by apply ends_number_bracket.
  cbn [mbind option_bind skip_ws]. change (is_ws 93) with false. cbv iota.
  change (93 =? 44) with false. change (93 =? 93) with true. cbv iota.
  reflexivity.
Qed.

Lemma print_entry_head kv : exists tl, print_entry kv = 91 :: tl.
Proof. by eexists. Qed.

(** The entries of a non-empty array, up to its closing bracket. *)
Lemma parse_elements_entries fuel kv l rest :
  parse_elements (S (S (S (S (S (length l + fuel))))))
    (print_entries (kv :: l) ++ 93 :: rest)
  = Some (map entry_json (kv :: l), rest).
Proof.
  revert kv. induction l as [|kv' l IH]; intros kv.
  - cbn [print_entries length map]. rewrite parse_elements_S.
    rewrite parse_value_entry.
    cbn [mbind option_bind skip_ws]. change (is_ws 93) with false. cbv iota.
    change (93 =? 44) with false. change (93 =? 93) with true. reflexivity.
  - change (print_entries (kv :: kv' :: l))
      with (print_entry kv ++ [44] ++ print_entries (kv' :: l)).
    rewrite <- !app_assoc. cbn [length].
    rewrite parse_elements_S, parse_value_entry.
    cbn [app mbind option_bind skip_ws]. change (is_ws 44) with false. cbv iota.
    change (44 =? 44) with true. cbv iota.
    assert (Hskip : forall s, skip_ws (print_entries (kv' :: l) ++ s)
                              = print_entries (kv' :: l) ++ s).
    { intros s0. destruct l; reflexivity. }
    cbn [Nat.add]. rewrite Hskip, IH. reflexivity.
Qed.

Lemma print_entry_length kv : (6 <= length (print_entry kv))%nat.
Proof.
  destruct kv as [k v]. unfold print_entry, quote. cbn [fst snd].
  destruct (print_number_head v) as (c & tl & -> & _).
  rewrite !length_app. simpl. lia.
Qed.

Lemma print_entries_length l : (6 * length l <= length (print_entries l))%nat.
Proof.
  induction l as [|kv l IH]; [simpl; lia|].
  pose proof (print_entry_length kv).
  destruct l as [|kv' l]; [simpl in *; lia|].
  change (print_entries (kv :: kv' :: l))
    with (print_entry kv ++ [44] ++ print_entries (kv' :: l)).
  rewrite !length_app. cbn [length] in *. lia.
Qed.

(** [JSON.parse(JSON.stringify(entries))] gives the entries back. *)
Theorem parse_stringify entries :
  parse (stringify entries) = Some (JArr (map entry_json entries)).
Proof.
  unfold parse, stringify. cbn [app skip_ws]. change (is_ws 91) with false. cbv iota.
  destruct entries as [|kv l]; [reflexivity|].
  cbn [length]. rewrite parse_value_array.
  destruct (print_entry_head kv) as [tl Hhead].
  assert (Hprint : exists tl', print_entries (kv :: l) = 91 :: tl').
  { destruct l; cbn [print_entries]; rewrite Hhead; by eexists. }
  destruct Hprint as [tl' Hprint]. rewrite Hprint. cbn [app skip_ws].
  change (is_ws 91) with false. cbv iota. change (91 =? 93) with false. cbv iota.
  change (91 :: tl' ++ [93]) with ((91 :: tl') ++ [93]). rewrite <- Hprint.
  pose proof (print_entries_length (kv :: l)) as Hlen. cbn [length] in Hlen.
  rewrite length_app. cbn [length].
  replace (length (print_entries (kv :: l)) + 1)%nat
    with (S (S (S (S (S (length l + (length (print_entries (kv :: l)) - length l - 4)))))))
    by lia.
  rewrite parse_elements_entries. reflexivity.
Qed.

End JSONFacts.
(** ** The fuel of the parser *)

Module FuelFacts.
Import JSON.
Local Open Scope nat_scope.

Lemma skip_ws_length s : length (skip_ws s) <= length s.
Proof.
  induction s as [|c s IH]; cbn [skip_ws]; [done|].
  destruct (is_ws c); cbn [length]; lia.
Qed.

Lemma span_digits_length s ds r :
  span_digits s = (ds, r) -> length r + length ds = length s.
Proof.
  revert ds r. induction s as [|c s IH]; intros ds r; cbn [span_digits].
  - by intros [= <- <-].
  - destruct (is_digit c).
    + destruct (span_digits s) as [ds' r'] eqn:Hs. intros [= <- <-].
      specialize (IH _ _ eq_refl). cbn [length]. lia.
    + intros [= <- <-]. cbn [length]. lia.
Qed.

Lemma parse_int_length s n r : parse_int s = Some (n, r) -> length r < length s.
Proof.
  destruct s as [|c s]; cbn [parse_int]; [done|].
  destruct (N.eqb c 48); [intros [= <- <-]; cbn [length]; lia|].
  destruct (is_digit c); [|done].
  destruct (span_digits s) as [ds r'] eqn:Hs. intros [= <- <-].
  apply span_digits_length in Hs. cbn [length]. lia.
Qed.

Lemma parse_frac_length s fs r : parse_frac s = Some (fs, r) -> length r <= length s.
Proof.
  destruct s as [|c s]; cbn [parse_frac]; [by intros [= <- <-]|].
  destruct (N.eqb c 46); [|by intros [= <- <-]].
  destruct (span_digits s) as [[|d ds] r'] eqn:Hs; [done|]. intros [= <- <-].
  apply span_digits_length in Hs. cbn [length] in *. lia.
Qed.

Lemma parse_exp_length s e r : parse_exp s = Some (e, r) -> length r <= length s.
Proof.
  destruct s as [|c s]; cbn [parse_exp]; [by intros [= <- <-]|].
  destruct (_ || _); [|by intros [= <- <-]].
  destruct (parse_sign s) as [neg s'] eqn:Hsign.
  assert (length s' <= length s).
  { destruct s as [|c' s0]; cbn [parse_sign] in Hsign; [by injection Hsign as <- <-|].
    destruct (N.eqb c' 45); [injection Hsign as <- <-; cbn [length]; lia|].
    destruct (N.eqb c' 43); injection Hsign as <- <-; cbn [length]; lia. }
  destruct (span_digits s') as [[|d ds] r'] eqn:Hs; [done|]. intros [= <- <-].
  apply span_digits_length in Hs. cbn [length] in *. lia.
Qed.

Lemma parse_number_length s x r : parse_number s = Some (x, r) -> length r < length s.
Proof.
  unfold parse_number.
  set (p := match s with c :: s' => if N.eqb c 45 then (true, s') else (false, s) | [] => (false, []) end).
  assert (Hp : length p.2 <= length s).
  { subst p. destruct s as [|c s']; [done|]. destruct (N.eqb c 45); cbn [snd length]; lia. }
  destruct p as [neg s1]. cbn [snd] in Hp.
  destruct (parse_int s1) as [[ip s2]|] eqn:H1; cbn [mbind option_bind]; [|done].
  destruct (parse_frac s2) as [[fs s3]|] eqn:H2; cbn [mbind option_bind]; [|done].
  destruct (parse_exp s3) as [[e s4]|] eqn:H3; cbn [mbind option_bind]; [|done].
  intros [= <- <-].
  apply parse_int_length in H1. apply parse_frac_length in H2.
  apply parse_exp_length in H3. lia.
Qed.

Lemma push_Some c p cs r :
  push c p = Some (cs, r) -> exists cs', p = Some (cs', r) /\ cs = c :: cs'.
Proof. destruct p as [[cs' r']|]; [|done]. cbn. intros [= <- <-]. eauto. Qed.

Lemma parse_chars_length_bounded n s cs r :
  length s <= n -> parse_chars s = Some (cs, r) -> length r < length s.
Proof.
  revert s cs r. induction n as [|n IH]; intros s cs r Hn.
  { destruct s; [done | cbn [length] in Hn; lia]. }
  destruct s as [|c s]; [done|]. cbn [parse_chars length] in *.
  destruct (N.eqb c 34); [intros [= <- <-]; lia|].
  destruct (N.eqb c 92).
  - destruct s as [|e s]; [done|]. cbn [length] in *.
    destruct (N.eqb e 117).
    + destruct s as [|h1 [|h2 [|h3 [|h4 s]]]]; try done.
      destruct (hex4 h1 h2 h3 h4); [|done].
      intros H. apply push_Some in H as (cs' & H & _).
      apply IH in H; cbn [length] in *; lia.
    + destruct (unescape e); [|done].
      intros H. apply push_Some in H as (cs' & H & _).
      apply IH in H; lia.
  - destruct (N.ltb c 32); [done|].
    intros H. apply push_Some in H as (cs' & H & _).
    apply IH in H; lia.
Qed.

Lemma parse_chars_length s cs r : parse_chars s = Some (cs, r) -> length r < length s.
Proof. by apply (parse_chars_length_bounded (length s)). Qed.

Lemma expect_length w s r : expect w s = Some r -> length r <= length s.
Proof.
  revert s. induction w as [|a w IH]; intros s; cbn [expect].
  - by intros [= <-].
  - destruct s as [|c s]; [done|]. destruct (N.eqb a c); [|done].
    intros H. apply IH in H. cbn [length]. lia.
Qed.

Lemma parse_value_unfold n s :
  parse_value (S n) s
  = match s with
    | [] => None
    | c :: s' =>
        if (c =? 91)%N then
          match skip_ws s' with
          | [] => None
          | d :: r =>
              if (d =? 93)%N then Some (JArr [], r)
              else '(l, r') ← parse_elements n (d :: r); Some (JArr l, r')
          end
        else if (c =? 123)%N then
          match skip_ws s' with
          | [] => None
          | d :: r =>
              if (d =? 125)%N then Some (JObj [], r)
              else '(l, r') ← parse_members n (d :: r); Some (JObj l, r')
          end
        else if (c =? 34)%N then
          '(cs, r) ← parse_chars s'; Some (JStr cs, r)
        else if (c =? 116)%N then
          r ← expect (str "rue") s'; Some (JBool true, r)
        else if (c =? 102)%N then
          r ← expect (str "alse") s'; Some (JBool false, r)
        else if (c =? 110)%N then
          r ← expect (str "ull") s'; Some (JNull, r)
        else
          '(x, r) ← parse_number s; Some (JNum x, r)
    end.
Proof. reflexivity. Qed.

Lemma parse_elements_unfold n s :
  parse_elements (S n) s
  = '(v, r) ← parse_value n s;
    match skip_ws r with
    | [] => None
    | d :: r' =>
        if (d =? 44)%N then
          '(l, r'') ← parse_elements n (skip_ws r'); Some (v :: l, r'')
        else if (d =? 93)%N then Some ([v], r')
        else None
    end.
Proof. reflexivity. Qed.

Lemma parse_members_unfold n s :
  parse_members (S n) s
  = match s with
    | [] => None
    | q :: s' =>
        if (q =? 34)%N then
          '(k, r) ← parse_chars s';
          match skip_ws r with
          | [] => None
          | c :: r0 =>
              if (c =? 58)%N then
                '(v, r1) ← parse_value n (skip_ws r0);
                match skip_ws r1 with
                | [] => None
                | d :: r2 =>
                    if (d =? 44)%N then
                      '(l, r3) ← parse_members n (skip_ws r2);
                      Some ((k, v) :: l, r3)
                    else if (d =? 125)%N then Some ([(k, v)], r2)
                    else None
                end
              else None
          end
        else None
    end.
Proof. reflexivity. Qed.

Lemma parse_mono n : mono_at n.
Proof.
  induction n as [|n (IHv & IHe & IHm)]; [done|].
  split; [|split].
  - intros s v r. rewrite !(parse_value_unfold _ s).
    destruct s as [|c s']; [done|].
    destruct (c =? 91)%N.
    { destruct (skip_ws s') as [|d r0]; [done|]. destruct (d =? 93)%N; [done|].
      destruct (parse_elements n (d :: r0)) as [[l r']|] eqn:He; [|done].
      by rewrite (IHe _ _ _ He). }
    destruct (c =? 123)%N; [|done].
    destruct (skip_ws s') as [|d r0]; [done|]. destruct (d =? 125)%N; [done|].
    destruct (parse_members n (d :: r0)) as [[l r']|] eqn:Hm; [|done].
    by rewrite (IHm _ _ _ Hm).
  - intros s l r. rewrite !(parse_elements_unfold _ s).
    destruct (parse_value n s) as [[v r1]|] eqn:Hv; [|done].
    rewrite (IHv _ _ _ Hv). cbn [mbind option_bind].
    destruct (skip_ws r1) as [|d r']; [done|].
    destruct (d =? 44)%N; [|done].
    destruct (parse_elements n (skip_ws r')) as [[l' r'']|] eqn:He; [|done].
    by rewrite (IHe _ _ _ He).
  - intros s l r. rewrite !(parse_members_unfold _ s).
    destruct s as [|q s']; [done|]. destruct (q =? 34)%N; [|done].
    destruct (parse_chars s') as [[k r0]|]; [|done]. cbn [mbind option_bind].
    destruct (skip_ws r0) as [|c r1]; [done|]. destruct (c =? 58)%N; [|done].
    destruct (parse_value n (skip_ws r1)) as [[v r2]|] eqn:Hv; [|done].
    rewrite (IHv _ _ _ Hv). cbn [mbind option_bind].
    destruct (skip_ws r2) as [|d r3]; [done|].
    destruct (d =? 44)%N; [|done].
    destruct (parse_members n (skip_ws r3)) as [[l' r4]|] eqn:Hm; [|done].
    by rewrite (IHm _ _ _ Hm).
Qed.

Lemma parse_value_le n m s v r :
  n <= m -> parse_value n s = Some (v, r) -> parse_value m s = Some (v, r).
Proof. intros Hle H. induction Hle as [|m Hle IH]; [done|]. by apply parse_mono. Qed.

Lemma parse_elements_le n m s l r :
  n <= m -> parse_elements n s = Some (l, r) -> parse_elements m s = Some (l, r).
Proof. intros Hle H. induction Hle as [|m Hle IH]; [done|]. by apply parse_mono. Qed.

Lemma parse_members_le n m s l r :
  n <= m -> parse_members n s = Some (l, r) -> parse_members m s = Some (l, r).
Proof. intros Hle H. induction Hle as [|m Hle IH]; [done|]. by apply parse_mono. Qed.

Lemma parse_enough n : enough_at n.
Proof.
  induction n as [|n (IHv & IHe & IHm)]; [done|].
  split; [|split].
  - intros s v r. rewrite (parse_value_unfold _ s).
    destruct s as [|c s']; [done|]. cbn [length].
    destruct (c =? 91)%N eqn:Hc1.
    { pose proof (skip_ws_length s') as Hws.
      destruct (skip_ws s') as [|d r0] eqn:Hs'; [done|]. cbn [length] in Hws.
      destruct (d =? 93)%N eqn:Hd.
      - intros [= <- <-]. split; [lia|].
        destruct (S (length s') - length r0) as [|k] eqn:Hk; [lia|].
        by rewrite parse_value_unfold, Hc1, Hs', Hd.
      - destruct (parse_elements n (d :: r0)) as [[l r']|] eqn:He; [|done].
        intros [= <- <-]. apply IHe in He as [Hlen He]. cbn [length] in *.
        split; [lia|].
        destruct (S (length s') - length r') as [|k] eqn:Hk; [lia|].
        rewrite parse_value_unfold, Hc1, Hs', Hd.
        apply (parse_elements_le _ k) in He; [|lia]. by rewrite He. }
    destruct (c =? 123)%N eqn:Hc2.
    { pose proof (skip_ws_length s') as Hws.
      destruct (skip_ws s') as [|d r0] eqn:Hs'; [done|]. cbn [length] in Hws.
      destruct (d =? 125)%N eqn:Hd.
      - intros [= <- <-]. split; [lia|].
        destruct (S (length s') - length r0) as [|k] eqn:Hk; [lia|].
        by rewrite parse_value_unfold, Hc1, Hc2, Hs', Hd.
      - destruct (parse_members n (d :: r0)) as [[l r']|] eqn:Hm; [|done].
        intros [= <- <-]. apply IHm in Hm as [Hlen Hm]. cbn [length] in *.
        split; [lia|].
        destruct (S (length s') - length r') as [|k] eqn:Hk; [lia|].
        rewrite parse_value_unfold, Hc1, Hc2, Hs', Hd.
        apply (parse_members_le _ k) in Hm; [|lia]. by rewrite Hm. }
    intros Hscalar.
    assert (Hlen : length r < S (length s')).
    { revert Hscalar. repeat case_match; intros Hres.
      - destruct (parse_chars s') as [[cs r0]|] eqn:Hp; [|done].
        injection Hres as <- <-. apply parse_chars_length in Hp. lia.
      - destruct (expect (str "rue") s') as [r0|] eqn:Hp; [|done].
        injection Hres as <- <-. apply expect_length in Hp. lia.
      - destruct (expect (str "alse") s') as [r0|] eqn:Hp; [|done].
        injection Hres as <- <-. apply expect_length in Hp. lia.
      - destruct (expect (str "ull") s') as [r0|] eqn:Hp; [|done].
        injection Hres as <- <-. apply expect_length in Hp. lia.
      - destruct (parse_number (c :: s')) as [[x r0]|] eqn:Hp; [|done].
        injection Hres as <- <-. apply parse_number_length in Hp.
        cbn [length] in Hp. lia. }
    split; [done|].
    destruct (S (length s') - length r) as [|k] eqn:Hk; [lia|].
    by rewrite parse_value_unfold, Hc1, Hc2.
  - intros s l r. rewrite (parse_elements_unfold _ s).
    destruct (parse_value n s) as [[v r1]|] eqn:Hv; [|done].
    cbn [mbind option_bind]. apply IHv in Hv as [Hlen1 Hv].
    pose proof (skip_ws_length r1) as Hws1.
    destruct (skip_ws r1) as [|d r2] eqn:Hr1; [done|]. cbn [length] in Hws1.
    destruct (d =? 44)%N eqn:Hd1.
    + destruct (parse_elements n (skip_ws r2)) as [[l' r3]|] eqn:He; [|done].
      intros [= <- <-]. apply IHe in He as [Hlen2 He].
      pose proof (skip_ws_length r2) as Hws2.
      split; [lia|].
      destruct (length s - length r3) as [|k] eqn:Hk; [lia|].
      rewrite parse_elements_unfold.
      apply (parse_value_le _ k) in Hv; [|lia]. rewrite Hv. cbn [mbind option_bind].
      rewrite Hr1, Hd1.
      apply (parse_elements_le _ k) in He; [|lia]. by rewrite He.
    + destruct (d =? 93)%N eqn:Hd2; [|done].
      intros [= <- <-]. split; [lia|].
      destruct (length s - length r2) as [|k] eqn:Hk; [lia|].
      rewrite parse_elements_unfold.
      apply (parse_value_le _ k) in Hv; [|lia]. rewrite Hv. cbn [mbind option_bind].
      by rewrite Hr1, Hd1, Hd2.
  - intros s l r. rewrite (parse_members_unfold _ s).
    destruct s as [|q s']; [done|]. cbn [length].
    destruct (q =? 34)%N eqn:Hq; [|done].
    destruct (parse_chars s') as [[key r0]|] eqn:Hkey; [|done].
    cbn [mbind option_bind]. pose proof (parse_chars_length _ _ _ Hkey) as Hlen0.
    pose proof (skip_ws_length r0) as Hws0.
    destruct (skip_ws r0) as [|c r1] eqn:Hr0; [done|]. cbn [length] in Hws0.
    destruct (c =? 58)%N eqn:Hc; [|done].
    pose proof (skip_ws_length r1) as Hws1.
    destruct (parse_value n (skip_ws r1)) as [[v r2]|] eqn:Hv; [|done].
    cbn [mbind option_bind]. apply IHv in Hv as [Hlen2 Hv].
    pose proof (skip_ws_length r2) as Hws2.
    destruct (skip_ws r2) as [|d r3] eqn:Hr2; [done|]. cbn [length] in Hws2.
    destruct (d =? 44)%N eqn:Hd1.
    + destruct (parse_members n (skip_ws r3)) as [[l' r4]|] eqn:Hm; [|done].
      intros [= <- <-]. apply IHm in Hm as [Hlen4 Hm].
      pose proof (skip_ws_length r3) as Hws3.
      split; [lia|].
      destruct (S (length s') - length r4) as [|k] eqn:Hk; [lia|].
      rewrite parse_members_unfold, Hq, Hkey. cbn [mbind option_bind].
      rewrite Hr0, Hc.
      apply (parse_value_le _ k) in Hv; [|lia]. rewrite Hv. cbn [mbind option_bind].
      rewrite Hr2, Hd1.
      apply (parse_members_le _ k) in Hm; [|lia]. by rewrite Hm.
    + destruct (d =? 125)%N eqn:Hd2; [|done].
      intros [= <- <-]. split; [lia|].
      destruct (S (length s') - length r3) as [|k] eqn:Hk; [lia|].
      rewrite parse_members_unfold, Hq, Hkey. cbn [mbind option_bind].
      rewrite Hr0, Hc.
      apply (parse_value_le _ k) in Hv; [|lia]. rewrite Hv. cbn [mbind option_bind].
      by rewrite Hr2, Hd1, Hd2.
Qed.

(** The length of the text is fuel enough: no amount of fuel parses a text
    that [parse] rejects, or parses it to another value. *)
Theorem parse_fuel fuel text v :
  parse_with fuel text = Some v -> parse text = Some v.
Proof.
  unfold parse_with, parse.
  destruct (parse_value fuel (skip_ws text)) as [[v' r]|] eqn:Hv; [|done].
  cbn [mbind option_bind]. intros H.
  apply parse_enough in Hv as [Hlen Hv].
  pose proof (skip_ws_length text).
  apply (parse_value_le _ (length text)) in Hv; [|lia]. by rewrite Hv.
Qed.

End FuelFacts.
(** ** Maps *)

Module MapFacts.
Import Map.

Ltac cases := cbn [get set delete fmap list_fmap fst snd]; repeat case_decide; simplify_eq; cbn [get set delete fmap list_fmap fst snd].

Lemma get_None key (m : t) : get key m = None <-> key ∉ m.*1.
Proof.
  induction m as [|[k v] m IH]; cases.
  - split; [intros _; apply not_elem_of_nil | done].
  - split; [done | intros H; destruct H; apply list_elem_of_here].
  - rewrite IH, not_elem_of_cons. tauto.
Qed.

Lemma get_set_eq key v (m : t) : get key (set key v m) = Some v.
Proof. induction m as [|[k v'] m IH]; cases; repeat case_decide; done. Qed.

Lemma get_set_ne key key' v (m : t) :
  key <> key' -> get key' (set key v m) = get key' m.
Proof. intros Hne. induction m as [|[k v'] m IH]; cases; repeat case_decide; done. Qed.

Lemma keys_set key v (m : t) :
  (set key v m).*1 = if decide (key ∈ m.*1) then m.*1 else m.*1 ++ [key].
Proof.
  induction m as [|[k v'] m IH]; cbn [set fmap list_fmap fst].
  - rewrite decide_False; [done | apply not_elem_of_nil].
  - destruct (decide (key = k)) as [->|Hk]; cbn [fmap list_fmap fst].
    + rewrite decide_True; [done | apply list_elem_of_here].
    + rewrite IH. destruct (decide (key ∈ m.*1)) as [Hin|Hin].
      * rewrite decide_True; [done | by apply list_elem_of_further].
      * rewrite decide_False; [done | rewrite not_elem_of_cons; tauto].
Qed.

Lemma ok_set key v (m : t) : ok m -> ok (set key v m).
Proof.
  unfold ok. intros Hok. rewrite keys_set.
  destruct (decide (key ∈ m.*1)); [done|].
  apply NoDup_app. split_and!; [done | | apply NoDup_singleton].
  intros x Hx Hx'. apply list_elem_of_singleton in Hx' as ->. done.
Qed.

Lemma set_fresh key v (m : t) : key ∉ m.*1 -> set key v m = m ++ [(key, v)].
Proof.
  induction m as [|[k v'] m IH]; cbn [set fmap list_fmap fst app]; [done|].
  rewrite not_elem_of_cons. intros [Hne Hin].
  rewrite decide_False by done. by rewrite IH.
Qed.

Lemma elem_of_keys_delete key k (m : t) : k ∈ (delete key m).*1 -> k ∈ m.*1.
Proof.
  induction m as [|[k' v] m IH]; cbn [delete fmap list_fmap fst]; [done|].
  destruct (decide (key = k')) as [->|Hne]; cbn [fmap list_fmap fst].
  - apply list_elem_of_further.
  - rewrite !elem_of_cons. intros [->|H]; [by left | right; by apply IH].
Qed.

Lemma ok_delete key (m : t) : ok m -> ok (delete key m).
Proof.
  unfold ok. induction m as [|[k v] m IH]; cbn [delete fmap list_fmap fst]; [done|].
  rewrite NoDup_cons. intros [Hk Hm].
  destruct (decide (key = k)) as [->|Hne]; [done|].
  cbn [fmap list_fmap fst]. apply NoDup_cons. split; [|by apply IH].
  intros H. by apply Hk, (elem_of_keys_delete key).
Qed.

Lemma get_delete_eq key (m : t) : ok m -> get key (delete key m) = None.
Proof.
  unfold ok. induction m as [|[k v] m IH]; cbn [delete get fmap list_fmap fst]; [done|].
  rewrite NoDup_cons. intros [Hk Hm].
  destruct (decide (key = k)) as [->|Hne].
  - by apply get_None.
  - cbn [get]. rewrite decide_False by done. by apply IH.
Qed.

Lemma get_delete_ne key key' (m : t) :
  key <> key' -> get key' (delete key m) = get key' m.
Proof.
  intros Hne. induction m as [|[k v] m IH]; cbn [delete get]; [done|].
  destruct (decide (key = k)) as [->|Hk]; cbn [get].
  - by rewrite decide_False.
  - by rewrite IH.
Qed.

Lemma ok_fold_set (acc : t) l :
  ok acc -> ok (fold_left (fun m kv => set kv.1 kv.2 m) l acc).
Proof.
  revert acc. induction l as [|[k v] l IH]; intros acc Hacc; cbn [fold_left]; [done|].
  apply IH. by apply ok_set.
Qed.

Lemma ok_of_entries l : ok (of_entries l).
Proof. apply ok_fold_set. apply NoDup_nil_2. Qed.

Lemma fold_set_fresh (acc : t) l :
  NoDup (acc ++ l).*1 ->
  fold_left (fun m kv => set kv.1 kv.2 m) l acc = acc ++ l.
Proof.
  revert acc. induction l as [|[k v] l IH]; intros acc Hnd; cbn [fold_left].
  - by rewrite app_nil_r.
  - cbn [fst snd]. rewrite set_fresh.
    + rewrite IH; rewrite <- app_assoc; done.
    + rewrite fmap_app in Hnd. apply NoDup_app in Hnd as (_ & Hdisj & _).
      intros Hin. apply (Hdisj k Hin). cbn. apply list_elem_of_here.
Qed.

(** Building a map from the entries of a map gives the map back. *)
Lemma of_entries_entries (m : t) : ok m -> of_entries (entries m) = m.
Proof. intros Hok. unfold of_entries, entries. by rewrite fold_set_fresh. Qed.

End MapFacts.

(** ** The ledger *)

Section LedgerFacts.
Context {Error : Type}.
Implicit Types (w : World Error) (this : ForceReloadStorage).

Lemma filter_entries l :
  omap key_value (filter is_entry (map JSON.entry_json l)) = l.
Proof.
  induction l as [|[k v] l IH]; [done|].
  cbn [map]. rewrite filter_cons_True by done. cbn. by rewrite IH.
Qed.

Lemma stringify_nonempty l : exists tl, JSON.stringify l = 91 :: tl.
Proof. by eexists. Qed.

Lemma ledger_read this w :
  ledger this w = read_text (sessionStorage w !! storageKey this).
Proof.
  unfold ledger, getMap, bind, getItem, read_text.
  destruct (parse_stored _) as [[]|]; done.
Qed.

Lemma read_text_stringify (m : Map.t) :
  Map.ok m -> read_text (Some (JSON.stringify m)) = m.
Proof.
  intros Hok. unfold read_text.
  destruct (stringify_nonempty m) as [tl Htl].
  unfold parse_stored. rewrite Htl, <- Htl.
  rewrite JSONFacts.parse_stringify, filter_entries.
  by apply MapFacts.of_entries_entries.
Qed.

Lemma getMap_world this w :
  sessionStorage (getMap this w).2 = sessionStorage w
  /\ reloads (getMap this w).2 = reloads w
  /\ calls (getMap this w).2 = calls w.
Proof.
  unfold getMap, bind, getItem.
  destruct (parse_stored _); done.
Qed.

Lemma ledger_ok this w : Map.ok (ledger this w).
Proof.
  rewrite ledger_read. unfold read_text.
  destruct (parse_stored _) as [[]|]; try apply NoDup_nil_2.
  apply MapFacts.ok_of_entries.
Qed.

Lemma save_world this (m : Map.t) w :
  (save this m w).2
  = mkWorld (<[storageKey this := JSON.stringify m]> (sessionStorage w))
            (console w) (reloads w) (calls w).
Proof. done. Qed.

Lemma ledger_save this (m : Map.t) w :
  Map.ok m -> ledger this (save this m w).2 = m.
Proof.
  intros Hok. rewrite ledger_read, save_world. cbn [sessionStorage].
  rewrite lookup_insert_eq. by apply read_text_stringify.
Qed.

Lemma addFunction_world this key w :
  (addFunction this key w).2
  = (save this (Map.set key (JSON.succ (count this w key)) (ledger this w))
       (getMap this w).2).2.
Proof.
  unfold addFunction, bind, count, ledger. by destruct (getMap this w).
Qed.

Lemma removeFunction_world this key w :
  (removeFunction this key w).2
  = (save this (Map.delete key (ledger this w)) (getMap this w).2).2.
Proof.
  unfold removeFunction, bind, ledger. by destruct (getMap this w).
Qed.

Lemma ledger_addFunction this key w :
  ledger this (addFunction this key w).2
  = Map.set key (JSON.succ (count this w key)) (ledger this w).
Proof.
  rewrite addFunction_world, ledger_save; [done|].
  apply MapFacts.ok_set, ledger_ok.
Qed.

Lemma ledger_removeFunction this key w :
  ledger this (removeFunction this key w).2 = Map.delete key (ledger this w).
Proof.
  rewrite removeFunction_world, ledger_save; [done|].
  apply MapFacts.ok_delete, ledger_ok.
Qed.

Lemma addFunction_counters this key w :
  reloads (addFunction this key w).2 = reloads w
  /\ calls (addFunction this key w).2 = calls w.
Proof.
  rewrite addFunction_world, save_world. cbn [reloads calls].
  by destruct (getMap_world this w) as (_ & -> & ->).
Qed.

Lemma removeFunction_counters this key w :
  reloads (removeFunction this key w).2 = reloads w
  /\ calls (removeFunction this key w).2 = calls w.
Proof.
  rewrite removeFunction_world, save_world. cbn [reloads calls].
  by destruct (getMap_world this w) as (_ & -> & ->).
Qed.

End LedgerFacts.

(** ** The wrapped loader *)

Section LoaderFacts.
Context {Component Error : Type}.
Implicit Types (w : World Error) (this : ForceReloadStorage) (sl : SafeLazy)
  (f : ImportFunction Component Error).

Local Open Scope nat_scope.

Lemma ledger_same_storage this w w' :
  sessionStorage w' = sessionStorage w -> ledger this w' = ledger this w.
Proof. intros H. by rewrite !ledger_read, H. Qed.

Lemma count_same_storage this w w' key :
  sessionStorage w' = sessionStorage w -> count this w' key = count this w key.
Proof. intros H. unfold count. by rewrite (ledger_same_storage this w w'). Qed.

Lemma tryImport_fulfilled r f n w c :
  call f (calls w) = Fulfilled c ->
  tryImport r f n w = (Fulfilled c, n, (invoke f w).2).
Proof. intros H. simp tryImport. unfold invoke. by rewrite H. Qed.

Lemma tryImport_retry r f n w e :
  call f (calls w) = Rejected e -> (n < r)%Z ->
  tryImport r f n w
  = tryImport r f (n + 1) (console_error (LoadError e) (invoke f w).2).2.
Proof.
  intros H Hn. rewrite tryImport_equation_1. unfold invoke. rewrite H. simpl.
  by destruct (decide (n < r)%Z).
Qed.

Lemma tryImport_give_up r f n w e :
  call f (calls w) = Rejected e -> ~ (n < r)%Z ->
  tryImport r f n w
  = (Rejected e, n, (console_error (LoadError e) (invoke f w).2).2).
Proof.
  intros H Hn. rewrite tryImport_equation_1. unfold invoke. rewrite H. simpl.
  by destruct (decide (n < r)%Z).
Qed.

(** [j] failures, then a success, within the budget. *)
Lemma tryImport_succeeds_after (j : nat) r f n w c :
  (n + Z.of_nat j <= r)%Z ->
  (forall i, i < j -> exists e, call f (calls w + i) = Rejected e) ->
  call f (calls w + j) = Fulfilled c ->
  exists w',
    tryImport r f n w = (Fulfilled c, (n + Z.of_nat j)%Z, w')
    /\ calls w' = calls w + S j
    /\ sessionStorage w' = sessionStorage w
    /\ reloads w' = reloads w.
Proof.
  revert n w. induction j as [|j IH]; intros n w Hbudget Hfail Hok.
  - rewrite Nat.add_0_r in Hok. rewrite (tryImport_fulfilled _ _ _ _ _ Hok).
    eexists. split; [by rewrite Z.add_0_r|]. cbn. split; [lia | done].
  - destruct (Hfail 0) as [e He]; [lia|]. rewrite Nat.add_0_r in He.
    rewrite (tryImport_retry _ _ _ _ _ He) by lia.
    set (w1 := (console_error (LoadError e) (invoke f w).2).2).
    assert (Hc1 : calls w1 = S (calls w)) by done.
    destruct (IH (n + 1)%Z w1) as (w' & Heq & Hcalls & Hst & Hrel).
    + lia.
    + intros i Hi. rewrite Hc1.
      replace (S (calls w) + i) with (calls w + S i) by lia. apply Hfail. lia.
    + rewrite Hc1. by replace (S (calls w) + j) with (calls w + S j) by lia.
    + exists w'. rewrite Heq. split; [do 2 f_equal; lia|].
      split; [lia | done].
Qed.

(** Failures until the budget is used up. *)
Lemma tryImport_exhausted (k : nat) r f n w :
  k = Z.to_nat (r - n) ->
  (forall i, i <= k -> exists e, call f (calls w + i) = Rejected e) ->
  exists e n' w',
    tryImport r f n w = (Rejected e, n', w')
    /\ call f (calls w + k) = Rejected e
    /\ calls w' = calls w + S k
    /\ sessionStorage w' = sessionStorage w
    /\ reloads w' = reloads w.
Proof.
  revert n w. induction k as [|k IH]; intros n w Hk Hfail.
  - destruct (Hfail 0) as [e He]; [lia|]. rewrite Nat.add_0_r in He.
    rewrite (tryImport_give_up _ _ _ _ _ He) by lia.
    eexists _, _, _. split; [done|]. rewrite Nat.add_0_r. cbn.
    split; [done|]. split; [lia | done].
  - destruct (Hfail 0) as [e He]; [lia|]. rewrite Nat.add_0_r in He.
    rewrite (tryImport_retry _ _ _ _ _ He) by lia.
    set (w1 := (console_error (LoadError e) (invoke f w).2).2).
    assert (Hc1 : calls w1 = S (calls w)) by done.
    destruct (IH (n + 1)%Z w1) as (e' & n' & w' & Heq & Hlast & Hcalls & Hst & Hrel).
    + lia.
    + intros i Hi. rewrite Hc1.
      replace (S (calls w) + i) with (calls w + S i) by lia. apply Hfail. lia.
    + exists e', n', w'. rewrite Heq. split; [done|].
      rewrite Hc1 in Hlast, Hcalls.
      replace (calls w + S k) with (S (calls w) + k) by lia.
      split; [done|]. split; [lia | done].
Qed.

Lemma safeLazy_fulfilled sl f w c n w1 :
  tryImport (sl_importRetries sl) f 0 w = (Fulfilled c, n, w1) ->
  safeLazy sl f w
  = (Fulfilled c,
     if greater_than_0 (maxRetries (sl_forceReload sl))
     then (removeFunction (reloadStorage sl) (toString f) w1).2 else w1).
Proof.
  intros H. unfold safeLazy, load. rewrite H. unfold bind.
  destruct (greater_than_0 _); [|done]. by destruct (removeFunction _ _ _).
Qed.

Lemma safeLazy_rejected sl f w e n w1 :
  tryImport (sl_importRetries sl) f 0 w = (Rejected e, n, w1) ->
  safeLazy sl f w = onLoadError sl (toString f) e w1.
Proof. intros H. unfold safeLazy, load. by rewrite H. Qed.

Lemma onLoadError_reload sl key e w :
  less_than (count (reloadStorage sl) w key)
           (maxRetries (sl_forceReload sl)) = true ->
  exists w',
    onLoadError (Component := Component) sl key e w = (Fulfilled NullModule, w')
    /\ reloads w' = S (reloads w)
    /\ calls w' = calls w
    /\ ledger (reloadStorage sl) w'
       = Map.set key (JSON.succ (count (reloadStorage sl) w key))
                 (ledger (reloadStorage sl) w).
Proof.
  intros Hlt. unfold onLoadError, bind. unfold count, ledger in Hlt.
  destruct (getMap (reloadStorage sl) w) as [stored w1] eqn:Hget.
  cbn [fst] in Hlt. rewrite Hlt.
  destruct (addFunction (reloadStorage sl) key w1) as [[] w2] eqn:Hadd.
  cbn. eexists. split; [done|]. cbn.
  assert (Hw1 : w1 = (getMap (reloadStorage sl) w).2) by by rewrite Hget.
  assert (Hw2 : w2 = (addFunction (reloadStorage sl) key w1).2) by by rewrite Hadd.
  destruct (getMap_world (reloadStorage sl) w) as (Hst & Hrel & Hcalls).
  destruct (addFunction_counters (reloadStorage sl) key w1) as (Hrel' & Hcalls').
  rewrite <- Hw1 in *. rewrite <- Hw2 in *.
  split; [congruence|]. split; [congruence|].
  rewrite (ledger_same_storage _ w2) by done.
  rewrite Hw2, ledger_addFunction.
  by rewrite (count_same_storage _ w w1), (ledger_same_storage _ w w1).
Qed.

Lemma onLoadError_throw sl key e w :
  less_than (count (reloadStorage sl) w key)
           (maxRetries (sl_forceReload sl)) = false ->
  onLoadError (Component := Component) sl key e w
  = (Rejected e, (getMap (reloadStorage sl) w).2).
Proof.
  intros Hlt. unfold onLoadError, bind. unfold count, ledger in Hlt.
  destruct (getMap (reloadStorage sl) w) as [stored w1] eqn:Hget.
  cbn [fst] in Hlt. by rewrite Hlt.
Qed.

End LoaderFacts.

Section InvariantFacts.

Lemma ltb_Int a b : JSON.ltb (JSON.Int a) (JSON.Int b) = (a <? b)%Z.
Proof. unfold JSON.ltb. cbn. by rewrite !Z.mul_1_r. Qed.

Lemma counts_from_get lo (m : Map.t) key v :
  counts_from lo m -> Map.get key m = Some v ->
  exists z, v = JSON.Int z /\ (lo <= z)%Z.
Proof.
  unfold counts_from. induction m as [|[k v'] m IH]; cbn [Map.get]; [done|].
  rewrite Forall_cons. intros [Hkv Hm]. case_decide.
  - by intros [= <-].
  - by apply IH.
Qed.



(** Under the invariant of the ledger no count is negative. *)
Lemma counts_from_not_negative {Error} this (w : World Error) key :
  counts_from 0 (ledger this w) -> JSON.negative (count this w key) = false.
Proof.
  intros Hw. unfold count.
  destruct (Map.get key (ledger this w)) as [v|] eqn:Hget; [|done].
  destruct (counts_from_get _ _ _ _ Hw Hget) as (z & -> & Hz).
  change (JSON.ltb (JSON.Int z) (JSON.Int 0) = false).
  rewrite ltb_Int. by apply Z.ltb_ge.
Qed.

(** For the count 0 of an absent key the two tests of the limit agree. *)
Lemma less_than_0 limit : less_than (JSON.Int 0) limit = greater_than_0 limit.
Proof.
  destruct limit as [max|]; [|done]. cbn [less_than greater_than_0].
  rewrite ltb_Int. destruct (Z.ltb_spec 0 max); case_bool_decide; lia.
Qed.

(** A count of a well-formed mapping is a safe integer. *)
Lemma well_formed_get (m : Map.t) key v :
  well_formed m -> Map.get key m = Some v ->
  exists z, v = JSON.Int z /\ (Z.abs z < 2 ^ 53)%Z.
Proof.
  unfold well_formed. induction m as [|[k v'] m IH]; cbn [Map.get]; [done|].
  rewrite Forall_cons. intros [Hkv Hm]. case_decide; [|by apply IH].
  intros [= <-]. destruct v' as [z|]; [|done].
  exists z. split; [done|]. by apply Z.ltb_lt.
Qed.

(** So is the count read for a key, which is 0 when the key is absent. *)
Lemma well_formed_count {Error} this (w : World Error) key :
  well_formed (ledger this w) ->
  exists z, count this w key = JSON.Int z /\ (Z.abs z < 2 ^ 53)%Z.
Proof.
  intros Hw. unfold count.
  destruct (Map.get key (ledger this w)) as [v|] eqn:Hget.
  - by apply (well_formed_get (ledger this w) key).
  - by exists 0%Z.
Qed.

(** Where [new Map] finds its keys and values. *)
Lemma fold_set_get (acc : Map.t) l key v :
  Map.get key (fold_left (fun m kv => Map.set kv.1 kv.2 m) l acc) = Some v ->
  (key, v) ∈ l \/ Map.get key acc = Some v.
Proof.
  revert acc. induction l as [|[k v'] l IH]; intros acc; cbn [fold_left]; [by right|].
  intros H. apply IH in H as [H|H]; [left; by apply list_elem_of_further|].
  cbn [fst snd] in H. destruct (decide (k = key)) as [->|Hne].
  - rewrite MapFacts.get_set_eq in H. injection H as ->. left. apply list_elem_of_here.
  - rewrite MapFacts.get_set_ne in H by done. by right.
Qed.

Lemma fold_set_keys (acc : Map.t) l key :
  is_Some (Map.get key (fold_left (fun m kv => Map.set kv.1 kv.2 m) l acc))
  <-> key ∈ l.*1 \/ is_Some (Map.get key acc).
Proof.
  revert acc. induction l as [|[k v'] l IH]; intros acc; cbn [fold_left].
  - cbn. rewrite elem_of_nil. tauto.
  - rewrite IH. cbn [fst snd fmap list_fmap]. rewrite elem_of_cons.
    destruct (decide (k = key)) as [->|Hne].
    + rewrite MapFacts.get_set_eq. split; [tauto | intros _; right; by eexists].
    + rewrite MapFacts.get_set_ne by done. split; [tauto|].
      intros [[Heq|H]|H]; [congruence | tauto | tauto].
Qed.

Lemma key_value_Some item k v :
  key_value item = Some (k, v)
  <-> exists rest, item = JSON.JArr (JSON.JStr k :: JSON.JNum v :: rest).
Proof.
  split.
  - destruct item as [| | | |[|[] [|[] rest]]|]; try done.
    cbn. intros [= -> ->]. by eexists.
  - by intros [rest ->].
Qed.

Lemma key_value_is_entry item kv : key_value item = Some kv -> is_entry item = true.
Proof. by destruct item as [| | | |[|[] [|[] rest]]|]. Qed.

Lemma elem_of_good_entries (items : list JSON.json) k v :
  (k, v) ∈ omap key_value (filter is_entry items)
  <-> exists rest, JSON.JArr (JSON.JStr k :: JSON.JNum v :: rest) ∈ items.
Proof.
  rewrite list_elem_of_omap. split.
  - intros (item & Hin & Hkv). apply list_elem_of_filter in Hin as [_ Hin].
    apply key_value_Some in Hkv as [rest ->]. by exists rest.
  - intros [rest Hin]. eexists. split; [|by apply key_value_Some; eexists].
    apply list_elem_of_filter. split; [|done]. by apply Is_true_true.
Qed.

End InvariantFacts.

Section MoreLoaderFacts.
Context {Component Error : Type}.
Implicit Types (w : World Error) (this : ForceReloadStorage) (sl : SafeLazy)
  (f : ImportFunction Component Error).
Local Open Scope nat_scope.

(** The retries write nothing and reload nothing. *)
Lemma tryImport_world r f n w :
  sessionStorage (tryImport r f n w).2 = sessionStorage w
  /\ reloads (tryImport r f n w).2 = reloads w.
Proof.
  funelim (tryImport r f n w); cbn in *; done.
Qed.

Lemma onLoadError_calls sl key e w :
  calls (onLoadError (Component := Component) sl key e w).2 = calls w.
Proof.
  destruct (less_than (count (reloadStorage sl) w key)
              (maxRetries (sl_forceReload sl))) eqn:Hlt.
  - destruct (onLoadError_reload (Component := Component) sl key e w Hlt)
      as (w' & -> & _ & Hcalls & _). done.
  - rewrite onLoadError_throw by done. apply getMap_world.
Qed.



(** One render of a loader that always fails. *)
Lemma safeLazy_failing sl f w :
  (forall i, exists e, call f i = Rejected e) ->
  exists e w1,
    call f (calls w + Z.to_nat (sl_importRetries sl)) = Rejected e
    /\ safeLazy sl f w = onLoadError sl (toString f) e w1
    /\ calls w1 = calls w + S (Z.to_nat (sl_importRetries sl))
    /\ sessionStorage w1 = sessionStorage w
    /\ reloads w1 = reloads w.
Proof.
  intros Hfail.
  destruct (tryImport_exhausted (Z.to_nat (sl_importRetries sl))
              (sl_importRetries sl) f 0 w)
    as (e & n' & w1 & Htry & Hlast & Hcalls & Hst & Hrel);
    [f_equal; lia | by intros |].
  exists e, w1. by rewrite (safeLazy_rejected _ _ _ _ _ _ Htry).
Qed.

Lemma count_set this w w' key v :
  ledger this w' = Map.set key v (ledger this w) -> count this w' key = v.
Proof. intros H. unfold count. by rewrite H, MapFacts.get_set_eq. Qed.

(** [n] renders of a loader that always fails, [j] reloads of the budget
    of [m] being spent already. *)
Lemma renders_failing (m : nat) sl f :
  maxRetries (sl_forceReload sl) = Some (Z.of_nat m) ->
  (forall i, exists e, call f i = Rejected e) ->
  forall n j w,
    j <= m ->
    count (reloadStorage sl) w (toString f) = JSON.Int (Z.of_nat j) ->
    let per := S (Z.to_nat (sl_importRetries sl)) in
    reloads (renders n sl f w).2 = reloads w + min n (m - j)
    /\ count (reloadStorage sl) (renders n sl f w).2 (toString f)
       = JSON.Int (Z.of_nat (j + min n (m - j)))
    /\ calls (renders n sl f w).2 = calls w + n * per
    /\ forall i, i < n ->
         (renders n sl f w).1 !! i
         = Some (if decide (j + i < m) then Fulfilled NullModule
                 else call f (calls w + (i + 1) * per - 1)).
Proof.
  intros Hmax Hfail n. induction n as [|n IH]; intros j w Hj Hcount per.
  { cbn. rewrite Hcount. repeat split; try (f_equal; f_equal; lia); lia. }
  destruct (safeLazy_failing sl f w Hfail) as (e & w1 & Hlast & Hrun & Hcalls & Hst & Hrel).
  cbn [renders]. unfold bind. rewrite Hrun.
  pose proof (count_same_storage (reloadStorage sl) w w1 (toString f) Hst) as Hcount1.
  rewrite Hcount in Hcount1.
  destruct (decide (j < m)) as [Hlt|Hge].
  - destruct (onLoadError_reload (Component := Component) sl (toString f) e w1)
      as (w2 & -> & Hrel2 & Hcalls2 & Hledger).
    { rewrite Hcount1, Hmax. cbn [less_than]. rewrite ltb_Int. apply Z.ltb_lt. lia. }
    apply count_set in Hledger. rewrite Hcount1 in Hledger. cbn [JSON.succ] in Hledger.
    destruct (IH (S j) w2) as (IHrel & IHcount & IHcalls & IHres);
      [lia | rewrite Hledger; f_equal; lia |].
    destruct (renders n sl f w2) as [rs w3]. cbn [fst snd ret] in *.
    split; [lia|]. split; [rewrite IHcount; f_equal; lia|]. split; [fold per; lia|].
    intros [|i] Hi; cbn [lookup list_lookup].
    + by rewrite decide_True by lia.
    + rewrite IHres by lia. f_equal.
      destruct (decide (S j + i < m)), (decide (j + S i < m)); try lia; [done|].
      f_equal. fold per. lia.
  - rewrite onLoadError_throw
      by (rewrite Hcount1, Hmax; cbn [less_than]; rewrite ltb_Int; apply Z.ltb_ge; lia).
    destruct (getMap_world (reloadStorage sl) w1) as (Hst2 & Hrel2 & Hcalls2).
    set (w2 := (getMap (reloadStorage sl) w1).2) in *.
    destruct (IH j w2) as (IHrel & IHcount & IHcalls & IHres);
      [lia | by rewrite (count_same_storage _ w1 w2) |].
    destruct (renders n sl f w2) as [rs w3]. cbn [fst snd ret] in *.
    split; [lia|]. split; [rewrite IHcount; f_equal; lia|]. split; [fold per; lia|].
    intros [|i] Hi; cbn [lookup list_lookup].
    + rewrite decide_False by lia. f_equal. rewrite <- Hlast. f_equal. fold per. lia.
    + rewrite IHres by lia. f_equal.
      rewrite !decide_False by lia. f_equal. fold per. lia.
Qed.

End MoreLoaderFacts.

(** * The claims *)

Section Claims.
Context {Component Error : Type}.
Implicit Types (w : World Error) (this : ForceReloadStorage) (sl : SafeLazy)
  (f : ImportFunction Component Error).
Local Open Scope nat_scope.

(** C2. With [importRetries = r], when the first [r] calls of a render fail:
    if the next call succeeds, the wrapped load is fulfilled with its
    module; if it fails too, the failure goes to the reload decision (the
    catch block).  In both cases the loader has been called [r + 1] times. *)
Theorem importRetries_calls (r : nat) sl f w :
  sl_importRetries sl = Z.of_nat r ->
  (forall i, i < r -> exists e, call f (calls w + i) = Rejected e) ->
  calls (safeLazy sl f w).2 = calls w + (r + 1)
  /\ (forall c, call f (calls w + r) = Fulfilled c ->
       (safeLazy sl f w).1 = Fulfilled c)
  /\ (forall e, call f (calls w + r) = Rejected e ->
       exists w1,
         calls w1 = calls w + (r + 1)
         /\ sessionStorage w1 = sessionStorage w
         /\ safeLazy sl f w = onLoadError sl (toString f) e w1).
Proof.
  intros Hr Hfail.
  destruct (call f (calls w + r)) as [c|e] eqn:Hlast.
  - destruct (tryImport_succeeds_after r (sl_importRetries sl) f 0 w c)
      as (w1 & Htry & Hcalls & Hst & Hrel); [lia | done | done |].
    rewrite (safeLazy_fulfilled _ _ _ _ _ _ Htry). cbn [fst snd].
    split; [|split; [by intros ? [= ->] | done]].
    destruct (greater_than_0 _); [|lia].
    destruct (removeFunction_counters (reloadStorage sl) (toString f) w1) as [_ ->].
    lia.
  - destruct (tryImport_exhausted r (sl_importRetries sl) f 0 w)
      as (e' & n' & w1 & Htry & Hlast' & Hcalls & Hst & Hrel); [lia | |].
    { intros i Hi. destruct (decide (i = r)) as [->|]; [by eexists|].
      apply Hfail. lia. }
    assert (e' = e) as -> by congruence.
    rewrite (safeLazy_rejected _ _ _ _ _ _ Htry), onLoadError_calls.
    split; [lia|]. split; [done|].
    intros ? [= <-]. exists w1. split; [lia | done].
Qed.

(** C1. With [maxRetries = m], a loader whose every call fails, and no
    entry for it in the ledger at first: of [n] renders in a row the first
    [m] reload the page and the later ones reject with the failure of their
    last call; so there are [min n m] reloads, and the count in the ledger is
    [min n m]: it stops at [m], and render [m + 1] re-throws. *)
Theorem reload_budget (m n : nat) sl f w :
  maxRetries (sl_forceReload sl) = Some (Z.of_nat m) ->
  (forall i, exists e, call f i = Rejected e) ->
  Map.get (toString f) (ledger (reloadStorage sl) w) = None ->
  reloads (renders n sl f w).2 = reloads w + min n m
  /\ count (reloadStorage sl) (renders n sl f w).2 (toString f)
     = JSON.Int (Z.of_nat (min n m))
  /\ forall i, i < n ->
       (renders n sl f w).1 !! i
       = Some (if decide (i < m) then Fulfilled NullModule
               else call f (calls w + (i + 1) * S (Z.to_nat (sl_importRetries sl)) - 1)).
Proof.
  intros Hmax Hfail Habsent.
  destruct (renders_failing m sl f Hmax Hfail n 0 w) as (Hrel & Hcount & _ & Hres);
    [lia | by unfold count; rewrite Habsent |].
  rewrite Nat.sub_0_r in *. done.
Qed.

(** C4. When the retries end in a success and the reload budget is positive,
    the render is fulfilled with the module of the loader, and the key of
    the loader (its source text) is absent from the ledger read afterwards. *)
Theorem success_removes_entry (j : nat) sl f w c :
  greater_than_0 (maxRetries (sl_forceReload sl)) = true ->
  (Z.of_nat j <= sl_importRetries sl)%Z ->
  (forall i, i < j -> exists e, call f (calls w + i) = Rejected e) ->
  call f (calls w + j) = Fulfilled c ->
  (safeLazy sl f w).1 = Fulfilled c
  /\ Map.get (toString f) (ledger (reloadStorage sl) (safeLazy sl f w).2) = None
  /\ toString f ∉ (ledger (reloadStorage sl) (safeLazy sl f w).2).*1.
Proof.
  intros Hmax Hj Hfail Hok.
  destruct (tryImport_succeeds_after j (sl_importRetries sl) f 0 w c)
    as (w1 & Htry & _); [lia | done | done |].
  rewrite (safeLazy_fulfilled _ _ _ _ _ _ Htry). cbn [fst snd].
  rewrite Hmax. rewrite ledger_removeFunction.
  assert (Hnone : Map.get (toString f)
            (Map.delete (toString f) (ledger (reloadStorage sl) w1)) = None)
    by apply MapFacts.get_delete_eq, ledger_ok.
  split; [done|]. split; [done|]. by apply MapFacts.get_None.
Qed.




End Claims.

Section LedgerClaims.
Context {Error : Type}.
Implicit Types (w : World Error) (this : ForceReloadStorage).

(** C6. For a well-formed stored mapping, one whose counts are safe
    integers: after [addFunction key] a read gives for [key] its count
    before (0 when absent) plus 1; after [removeFunction key] a read has no
    [key]; a well-formed mapping saved is the mapping read, its text being
    parsed back to the array of its pairs. *)
Theorem ledger_round_trip this key w (m : Map.t) :
  well_formed (ledger this w) ->
  (exists z,
     count this w key = JSON.Int z
     /\ Map.get key (ledger this (addFunction this key w).2) = Some (JSON.Int (z + 1)))
  /\ (Map.get key (ledger this w) = None ->
      Map.get key (ledger this (addFunction this key w).2) = Some (JSON.Int 1))
  /\ Map.get key (ledger this (removeFunction this key w).2) = None
  /\ (Map.ok m -> well_formed m ->
      JSON.parse (JSON.stringify (Map.entries m))
      = Some (JSON.JArr (map JSON.entry_json m))
      /\ ledger this (save this m w).2 = m).
Proof.
  intros Hw. rewrite ledger_addFunction, ledger_removeFunction, MapFacts.get_set_eq.
  split.
  { destruct (well_formed_count this w key Hw) as (z & Hz & _).
    exists z. by rewrite Hz. }
  split.
  { intros Habsent. unfold count. by rewrite Habsent. }
  split; [apply MapFacts.get_delete_eq, ledger_ok|].
  intros Hok _. split; [apply JSONFacts.parse_stringify | by apply ledger_save].
Qed.

(** C9. For a well-formed stored mapping, [addFunction key] and
    [removeFunction key] leave the count of every other key as it was. *)
Theorem ledger_frame this key other w :
  well_formed (ledger this w) ->
  key <> other ->
  Map.get other (ledger this (addFunction this key w).2)
  = Map.get other (ledger this w)
  /\ Map.get other (ledger this (removeFunction this key w).2)
     = Map.get other (ledger this w).
Proof.
  intros _ Hne. rewrite ledger_addFunction, ledger_removeFunction.
  by rewrite MapFacts.get_set_ne, MapFacts.get_delete_ne.
Qed.

(** C3, as the code has it.  A read always gives a mapping ([getMap] is a
    function: the error of the parser is caught) and never writes.  When
    nothing is stored, or the empty string, or JSON that is not an array,
    the read gives the empty mapping and logs nothing.  When the stored text is not JSON, the
    read gives the empty mapping and logs the error of the parser.  When it
    is a JSON array, nothing is logged, and a key is in the mapping exactly
    when some item of the array is an array that starts with this key, a
    string, and a number; its value is the number of such an item. *)
Theorem getMap_tolerates_corruption this w :
  sessionStorage (getMap this w).2 = sessionStorage w
  /\ (sessionStorage w !! storageKey this = None
      \/ sessionStorage w !! storageKey this = Some [] ->
      getMap this w = ([], w))
  /\ (forall text,
        sessionStorage w !! storageKey this = Some text -> text <> [] ->
        JSON.parse text = None ->
        getMap this w = ([], (console_error (SyntaxError text) w).2))
  /\ (forall text parsed,
        sessionStorage w !! storageKey this = Some text -> text <> [] ->
        JSON.parse text = Some parsed ->
        (forall items, parsed <> JSON.JArr items) ->
        getMap this w = ([], w))
  /\ (forall text items,
        sessionStorage w !! storageKey this = Some text -> text <> [] ->
        JSON.parse text = Some (JSON.JArr items) ->
        (getMap this w).2 = w
        /\ (forall key value,
              Map.get key (ledger this w) = Some value ->
              exists rest,
                JSON.JArr (JSON.JStr key :: JSON.JNum value :: rest) ∈ items)
        /\ (forall key,
              is_Some (Map.get key (ledger this w))
              <-> exists value rest,
                    JSON.JArr (JSON.JStr key :: JSON.JNum value :: rest) ∈ items)).
Proof.
  split; [apply getMap_world|].
  unfold ledger, getMap, bind, getItem.
  split; [by intros [->| ->]|].
  split; [|split].
  - intros [|c text] Hstored Hne Hparse; [done|].
    rewrite Hstored. cbn [parse_stored]. by rewrite Hparse.
  - intros [|c text] parsed Hstored Hne Hparse Hshape; [done|].
    rewrite Hstored. cbn [parse_stored]. rewrite Hparse.
    destruct parsed; try done. by destruct (Hshape l).
  - intros [|c text] items Hstored Hne Hparse; [done|].
    rewrite Hstored. cbn [parse_stored]. rewrite Hparse. cbn [fst snd ret].
    split; [done|]. unfold Map.of_entries. split.
    + intros key value Hget.
      apply fold_set_get in Hget as [Hin|?]; [|done].
      by apply elem_of_good_entries.
    + intros key. rewrite fold_set_keys, list_elem_of_fmap. split.
      * intros [([k v] & -> & Hin)|[? ?]]; [|done].
        exists v. by apply elem_of_good_entries.
      * intros (value & Hin). left. exists (key, value).
        split; [done|]. by apply elem_of_good_entries.
Qed.

End LedgerClaims.

Section ConfigClaims.


End ConfigClaims.

(** * The test suite, run on the model *)

Section Tests.
Local Open Scope nat_scope.
Local Open Scope string_scope.

Example parse_nested :
  JSON.parse (quoted "[['a', 1], ['bA\n', -2.50e1], {'k': [true, null]}, 0.125]")
  = Some (JSON.JArr [JSON.JArr [JSON.JStr (str "a"); JSON.JNum (JSON.Int 1)];
                     JSON.JArr [JSON.JStr [98; 65; 10]%N; JSON.JNum (JSON.Int (-25))];
                     JSON.JObj [(str "k", JSON.JArr [JSON.JBool true; JSON.JNull])];
                     JSON.JNum (JSON.Dec false 12 JSON.D5 2)]).
Proof. vm_compute. reflexivity. Qed.

Example parse_rejects :
  map (fun s => JSON.parse (quoted s))
      ["invalid"; ""; "[1,]"; "01"; "1."; "{'a':1,}"; "'\x'"; "[1] 2"; "tru"]
  = [None; None; None; None; None; None; None; None; None].
Proof. vm_compute. reflexivity. Qed.

Example stringify_escapes :
  JSON.stringify [(str "a", JSON.Int 1);
                  ([98; 10; 55357; 56832; 56832]%N, JSON.Int (-120));
                  (quoted "'\\", JSON.Dec true 100 JSON.D5 4)]
  = (quoted "[['a',1],['b\n" ++ [55357; 56832]%N
       ++ quoted "\ude00',-120],['\'\\\\',-0.01005]]")%list.
Proof. vm_compute. reflexivity. Qed.

(** "should reload the page once if the component fails to load" *)
Example default_reloads_once :
  let '(results, page) := renders 2 (factory None None) failing fresh in
  results = [Fulfilled NullModule; Rejected "Failed to load component"]
  /\ calls page = 2 /\ reloads page = 1
  /\ ledger default_ledger page = [(source, JSON.Int 1)].
Proof. vm_compute. done. Qed.

(** "should render the component if it loads after a failed attempt" *)
Example default_loads_after_reload :
  let sl := factory None None in
  let '(first, page1) := safeLazy sl (failing_until 1) fresh in
  let '(second, page2) := safeLazy sl (failing_until 1) page1 in
  first = Fulfilled NullModule
  /\ ledger default_ledger page1 = [(source, JSON.Int 1)]
  /\ second = Fulfilled (Default "Component")
  /\ ledger default_ledger page2 = [].
Proof. vm_compute. done. Qed.

(** "should be ok with a malformed storage" *)
Example default_malformed_storage :
  let '(result, page) := safeLazy (factory None None) failing (with_stored (str "invalid")) in
  result = Fulfilled NullModule /\ calls page = 1 /\ reloads page = 1
  /\ ledger default_ledger page = [(source, JSON.Int 1)].
Proof. vm_compute. done. Qed.

(** "with force reload off and import retry on" *)
Example off_retries_once :
  let sl := factory (Some ForceReloadOff) (Some 1%Z) in
  let '(result, page) := safeLazy sl (failing_until 1) fresh in
  let '(result', page') := safeLazy sl failing fresh in
  result = Fulfilled (Default "Component") /\ calls page = 2
  /\ sessionStorage page !! defaultStorageKey = None
  /\ result' = Rejected "Failed to load component" /\ calls page' = 2
  /\ sessionStorage page' !! defaultStorageKey = None.
Proof. vm_compute. done. Qed.

(** "with custom storage key and force reload limit" *)
Example custom_key_limit_two :
  let sl := factory (Some (ForceReloadWith
                             {| init_maxRetries := Some (Some 2%Z);
                                init_storageKey := Some (str "customKey") |})) None in
  let custom := new_ForceReloadStorage (Some (str "customKey")) in
  let '(first, page1) := safeLazy sl failing fresh in
  let '(second, page2) := safeLazy sl failing page1 in
  let '(third, page3) := safeLazy sl failing page2 in
  ledger custom page1 = [(source, JSON.Int 1)]
  /\ ledger custom page2 = [(source, JSON.Int 2)]
  /\ third = Rejected "Failed to load component"
  /\ sessionStorage page3 !! str "customKey" = Some (JSON.stringify [(source, JSON.Int 2)])
  /\ sessionStorage page3 !! defaultStorageKey = None.
Proof. vm_compute. done. Qed.

(** "with custom force reload limit and import retry limit" *)
Example limit_two_retries_two :
  let sl := factory (limit 2) (Some 2%Z) in
  let '(results, page) := renders 2 sl failing fresh in
  let '(result, page') := safeLazy sl (failing_until 6) page in
  results = [Fulfilled NullModule; Fulfilled NullModule]
  /\ calls page = 6 /\ ledger default_ledger page = [(source, JSON.Int 2)]
  /\ result = Fulfilled (Default "Component")
  /\ calls page' = 7 /\ ledger default_ledger page' = [].
Proof. vm_compute. done. Qed.

End Tests.

(** * The statements at concrete inputs *)

(** A concrete mapping is well-formed: it is evaluated, and its counts are
    looked at one by one. *)
Ltac evaluate_mapping :=
  match goal with
  | |- well_formed ?m =>
      let m' := eval vm_compute in m in
      replace m with m' by (vm_compute; reflexivity);
      repeat constructor
  end.

Section Witnesses.
Local Open Scope nat_scope.
Local Open Scope string_scope.

Lemma reload_budget_witness :
  let sl := factory (limit 2) (Some 2%Z) in
  reloads (renders 3 sl failing fresh).2 = 2
  /\ count (reloadStorage sl) (renders 3 sl failing fresh).2 source = JSON.Int 2
  /\ (renders 3 sl failing fresh).1 !! 2 = Some (Rejected "Failed to load component").
Proof.
  intros sl.
  destruct (reload_budget 2 3 sl failing fresh) as (Hreloads & Hcount & Hresults).
  - reflexivity.
  - intros i. eexists. reflexivity.
  - vm_compute. reflexivity.
  - split; [exact Hreloads|]. split; [exact Hcount|].
    rewrite (Hresults 2) by lia. reflexivity.
Defined.

Lemma importRetries_calls_witness :
  let sl := factory (Some ForceReloadOff) (Some 2%Z) in
  (calls (safeLazy sl (failing_until 2) fresh).2 = 3
   /\ (safeLazy sl (failing_until 2) fresh).1 = Fulfilled (Default "Component"))
  /\ (calls (safeLazy sl failing fresh).2 = 3
      /\ exists page,
           calls page = 3
           /\ safeLazy sl failing fresh
              = onLoadError sl source "Failed to load component" page).
Proof.
  intros sl. split.
  - destruct (importRetries_calls 2 sl (failing_until 2) fresh) as (Hcalls & Hok & _).
    + reflexivity.
    + intros [|[|i]] Hi; [eexists; reflexivity.. | lia].
    + split; [exact Hcalls | apply Hok; reflexivity].
  - destruct (importRetries_calls 2 sl failing fresh) as (Hcalls & _ & Hfail).
    + reflexivity.
    + intros i Hi. eexists. reflexivity.
    + split; [exact Hcalls|].
      destruct (Hfail "Failed to load component" eq_refl) as (page & Hpage & _ & Hrun).
      exists page. split; [exact Hpage | exact Hrun].
Defined.

Lemma success_removes_entry_witness :
  let sl := factory None None in
  let page := (safeLazy sl (failing_until 1) fresh).2 in
  Map.get source (ledger (reloadStorage sl) page) = Some (JSON.Int 1)
  /\ (safeLazy sl (failing_until 1) page).1 = Fulfilled (Default "Component")
  /\ Map.get source (ledger (reloadStorage sl) (safeLazy sl (failing_until 1) page).2) = None.
Proof.
  intros sl page. split; [vm_compute; reflexivity|].
  destruct (success_removes_entry 0 sl (failing_until 1) page (Default "Component"))
    as (Hresult & Hgone & _).
  - reflexivity.
  - vm_compute. discriminate.
  - intros i Hi. lia.
  - vm_compute. reflexivity.
  - split; [exact Hresult | exact Hgone].
Defined.





Lemma ledger_round_trip_witness :
  let m := [(source, JSON.Int 2); (str "other", JSON.Int 1)] in
  let page := (save default_ledger m fresh).2 in
  ledger default_ledger page = m
  /\ Map.get source (ledger default_ledger (addFunction default_ledger source page).2)
     = Some (JSON.Int 3)
  /\ Map.get source (ledger default_ledger (removeFunction default_ledger source page).2)
     = None.
Proof.
  intros m page.
  assert (Hm : well_formed m) by evaluate_mapping.
  destruct (ledger_round_trip default_ledger source page m)
    as ((z & Hz & Hadd) & _ & Hremove & _).
  { evaluate_mapping. }
  destruct (ledger_round_trip default_ledger source fresh m) as (_ & _ & _ & Hsave).
  { evaluate_mapping. }
  split; [|split].
  - apply Hsave; [|exact Hm]. apply (bool_decide_unpack _). vm_compute. exact I.
  - vm_compute in Hz. injection Hz as <-. exact Hadd.
  - exact Hremove.
Defined.


Lemma ledger_frame_witness :
  let page := with_stored (quoted "[['other',3]]") in
  Map.get (str "other") (ledger default_ledger (addFunction default_ledger source page).2)
  = Some (JSON.Int 3)
  /\ Map.get (str "other")
       (ledger default_ledger (removeFunction default_ledger source page).2)
     = Some (JSON.Int 3).
Proof.
  intros page.
  destruct (ledger_frame default_ledger source (str "other") page) as [Hadd Hremove].
  - evaluate_mapping.
  - vm_compute. discriminate.
  - rewrite Hadd, Hremove. vm_compute. split; reflexivity.
Defined.

(** The claim C3 as the specification has it fails on the stored text
    [{}]: it is JSON and not an array, the read gives the empty mapping,
    and nothing is logged. *)
Lemma getMap_object_not_logged :
  let page := with_stored (str "{}") in
  JSON.parse (str "{}") = Some (JSON.JObj [])
  /\ (getMap default_ledger page).1 = []
  /\ console (getMap default_ledger page).2 = console page.
Proof. vm_compute. done. Qed.

Lemma getMap_tolerates_corruption_witness :
  let broken := with_stored (str "invalid") in
  let mixed := with_stored (quoted "[['a',1],[2],['b','x'],['c',3,null],'d']") in
  getMap default_ledger fresh = ([], fresh)
  /\ getMap default_ledger broken
     = ([], (console_error (SyntaxError (str "invalid")) broken).2)
  /\ getMap default_ledger (with_stored (str "12")) = ([], with_stored (str "12"))
  /\ (getMap default_ledger mixed).2 = mixed
  /\ (exists rest,
        JSON.JArr (JSON.JStr (str "a") :: JSON.JNum (JSON.Int 1) :: rest)
        ∈ [JSON.JArr [JSON.JStr (str "a"); JSON.JNum (JSON.Int 1)];
           JSON.JArr [JSON.JNum (JSON.Int 2)];
           JSON.JArr [JSON.JStr (str "b"); JSON.JStr (str "x")];
           JSON.JArr [JSON.JStr (str "c"); JSON.JNum (JSON.Int 3); JSON.JNull];
           JSON.JStr (str "d")])
  /\ (is_Some (Map.get (str "c") (ledger default_ledger mixed))
      <-> exists value rest,
            JSON.JArr (JSON.JStr (str "c") :: JSON.JNum value :: rest)
            ∈ [JSON.JArr [JSON.JStr (str "a"); JSON.JNum (JSON.Int 1)];
               JSON.JArr [JSON.JNum (JSON.Int 2)];
               JSON.JArr [JSON.JStr (str "b"); JSON.JStr (str "x")];
               JSON.JArr [JSON.JStr (str "c"); JSON.JNum (JSON.Int 3); JSON.JNull];
               JSON.JStr (str "d")]).
Proof.
  intros broken mixed. split; [|split; [|split]].
  - destruct (getMap_tolerates_corruption default_ledger fresh) as (_ & Habsent & _).
    apply Habsent. left. vm_compute. reflexivity.
  - destruct (getMap_tolerates_corruption default_ledger broken) as (_ & _ & Hbroken & _).
    apply Hbroken; [vm_compute; reflexivity | vm_compute; discriminate | vm_compute; reflexivity].
  - destruct (getMap_tolerates_corruption default_ledger (with_stored (str "12")))
      as (_ & _ & _ & Hshape & _).
    apply (Hshape (str "12") (JSON.JNum (JSON.Int 12)));
      [vm_compute; reflexivity | vm_compute; discriminate | vm_compute; reflexivity
      | discriminate].
  - destruct (getMap_tolerates_corruption default_ledger mixed) as (_ & _ & _ & _ & Harray).
    destruct (Harray (quoted "[['a',1],[2],['b','x'],['c',3,null],'d']")
                [JSON.JArr [JSON.JStr (str "a"); JSON.JNum (JSON.Int 1)];
                 JSON.JArr [JSON.JNum (JSON.Int 2)];
                 JSON.JArr [JSON.JStr (str "b"); JSON.JStr (str "x")];
                 JSON.JArr [JSON.JStr (str "c"); JSON.JNum (JSON.Int 3); JSON.JNull];
                 JSON.JStr (str "d")])
      as (Hpage & Hvalues & Hkeys);
      [vm_compute; reflexivity | vm_compute; discriminate | vm_compute; reflexivity |].
    split; [exact Hpage|]. split; [|exact (Hkeys (str "c"))].
    apply Hvalues. vm_compute. reflexivity.
Defined.

End Witnesses.

(** * Further properties of the ledger *)

Section MoreMapFacts.

Lemma delete_absent key (m : Map.t) : Map.get key m = None -> Map.delete key m = m.
Proof.
  induction m as [|[k v] m IH]; cbn [Map.get Map.delete]; [done|].
  case_decide; [done|]. intros Hget. by rewrite IH.
Qed.

Lemma delete_set key v (m : Map.t) :
  Map.ok m -> Map.delete key (Map.set key v m) = Map.delete key m.
Proof.
  unfold Map.ok. induction m as [|[k v'] m IH]; cbn [Map.set Map.delete fmap list_fmap fst].
  - by rewrite decide_True.
  - rewrite NoDup_cons. intros [Hk Hm]. case_decide; cbn [Map.delete].
    + by rewrite decide_True.
    + rewrite decide_False by done. by rewrite IH.
Qed.

Lemma delete_delete key (m : Map.t) :
  Map.ok m -> Map.delete key (Map.delete key m) = Map.delete key m.
Proof.
  intros Hok. apply delete_absent. by apply MapFacts.get_delete_eq.
Qed.

(** The last entry of a key is the one [new Map] keeps. *)
Lemma get_of_entries_last (l1 l2 : list (list N * JSON.number)) key v :
  key ∉ l2.*1 -> Map.get key (Map.of_entries (l1 ++ (key, v) :: l2)) = Some v.
Proof.
  unfold Map.of_entries. rewrite fold_left_app. cbn [fold_left fst snd].
  generalize (fold_left (fun m kv => Map.set kv.1 kv.2 m) l1 []). intros acc.
  assert (Hacc : Map.get key (Map.set key v acc) = Some v) by apply MapFacts.get_set_eq.
  revert Hacc. generalize (Map.set key v acc). clear acc.
  induction l2 as [|[k v'] l2 IH]; intros acc Hacc Hnotin; cbn [fold_left]; [done|].
  cbn [fmap list_fmap fst] in Hnotin. apply not_elem_of_cons in Hnotin as [Hne Hnotin].
  apply IH; [|done]. cbn [fst snd]. by rewrite MapFacts.get_set_ne.
Qed.

End MoreMapFacts.

Section MoreLedgerFacts.
Context {Error : Type}.
Implicit Types (w : World Error) (this : ForceReloadStorage).

Lemma addFunction_storage this key w :
  sessionStorage (addFunction this key w).2
  = <[storageKey this :=
        JSON.stringify (Map.set key (JSON.succ (count this w key)) (ledger this w))]>
      (sessionStorage w).
Proof.
  rewrite addFunction_world, save_world. cbn [sessionStorage].
  by destruct (getMap_world this w) as (-> & _).
Qed.

Lemma removeFunction_storage this key w :
  sessionStorage (removeFunction this key w).2
  = <[storageKey this := JSON.stringify (Map.delete key (ledger this w))]>
      (sessionStorage w).
Proof.
  rewrite removeFunction_world, save_world. cbn [sessionStorage].
  by destruct (getMap_world this w) as (-> & _).
Qed.

(** A read of what [save] wrote logs nothing. *)
Lemma getMap_stringify this (m : Map.t) w :
  sessionStorage w !! storageKey this = Some (JSON.stringify m) ->
  (getMap this w).2 = w.
Proof.
  intros Hstored. unfold getMap, bind, getItem. rewrite Hstored.
  destruct (stringify_nonempty m) as [tl Htl].
  unfold parse_stored. rewrite Htl, <- Htl.
  by rewrite JSONFacts.parse_stringify.
Qed.

(** X1. The ledger writes one key of the session storage.  [addFunction],
    [removeFunction] and [save] call [setItem] with [this.storageKey] and
    nothing else: every other key of the session storage keeps its text, and
    a ledger stored under another key reads the same before and after. *)
Theorem ledger_writes_one_key this key (m : Map.t) other w :
  other <> storageKey this ->
  sessionStorage (addFunction this key w).2 !! other = sessionStorage w !! other
  /\ sessionStorage (removeFunction this key w).2 !! other = sessionStorage w !! other
  /\ sessionStorage (save this m w).2 !! other = sessionStorage w !! other
  /\ ledger {| storageKey := other |} (addFunction this key w).2
     = ledger {| storageKey := other |} w
  /\ ledger {| storageKey := other |} (removeFunction this key w).2
     = ledger {| storageKey := other |} w.
Proof.
  intros Hne. rewrite !ledger_read. cbn [storageKey].
  rewrite addFunction_storage, removeFunction_storage, save_world. cbn [sessionStorage].
  by rewrite !lookup_insert_ne.
Qed.

(** X2. Whatever the storage held (nothing, text that is no JSON, JSON of
    another shape, an array with items that are no entries), after
    [addFunction] or [removeFunction] a read goes through [JSON.parse]
    without an error: it logs nothing and changes nothing.  When the counts
    that the ledger read before were safe integers, the text under the
    ledger's key is then the serialisation of the mapping that this read
    returns. *)
Theorem write_repairs_storage this key w :
  ((getMap this (addFunction this key w).2).2 = (addFunction this key w).2
   /\ (getMap this (removeFunction this key w).2).2 = (removeFunction this key w).2)
  /\ (well_formed (ledger this w) ->
      sessionStorage (addFunction this key w).2 !! storageKey this
      = Some (JSON.stringify (ledger this (addFunction this key w).2))
      /\ sessionStorage (removeFunction this key w).2 !! storageKey this
         = Some (JSON.stringify (ledger this (removeFunction this key w).2))).
Proof.
  assert (Hadd : sessionStorage (addFunction this key w).2 !! storageKey this
            = Some (JSON.stringify (ledger this (addFunction this key w).2))).
  { by rewrite ledger_addFunction, addFunction_storage, lookup_insert_eq. }
  assert (Hremove : sessionStorage (removeFunction this key w).2 !! storageKey this
            = Some (JSON.stringify (ledger this (removeFunction this key w).2))).
  { by rewrite ledger_removeFunction, removeFunction_storage, lookup_insert_eq. }
  split; [split; by eapply getMap_stringify | done].
Qed.

(** X3. [removeFunction] on a key that a well-formed mapping does not hold
    leaves the mapping as it is; it still writes: the stored text becomes
    the serialisation of the mapping that was read. *)
Theorem removeFunction_absent this key w :
  well_formed (ledger this w) ->
  Map.get key (ledger this w) = None ->
  ledger this (removeFunction this key w).2 = ledger this w
  /\ sessionStorage (removeFunction this key w).2 !! storageKey this
     = Some (JSON.stringify (ledger this w)).
Proof.
  intros _ Habsent.
  rewrite ledger_removeFunction, removeFunction_storage, lookup_insert_eq.
  by rewrite delete_absent.
Qed.

(** X4. On a well-formed mapping, removing a key twice leaves the storage
    as removing it once does, and removing a key after [addFunction] on it
    leaves the storage as a removal without the addition does: a removal
    forgets every increment made before it. *)
Theorem removeFunction_absorbs this key w :
  well_formed (ledger this w) ->
  sessionStorage (removeFunction this key (removeFunction this key w).2).2
  = sessionStorage (removeFunction this key w).2
  /\ sessionStorage (removeFunction this key (addFunction this key w).2).2
     = sessionStorage (removeFunction this key w).2.
Proof.
  intros _.
  rewrite !(removeFunction_storage this key (removeFunction this key w).2).
  rewrite !(removeFunction_storage this key (addFunction this key w).2).
  rewrite ledger_removeFunction, ledger_addFunction.
  rewrite removeFunction_storage, addFunction_storage, !insert_insert_eq.
  rewrite delete_delete, delete_set by apply ledger_ok. done.
Qed.

(** X5. [n] calls of [addFunction] on a key whose count is the safe integer
    [z] (0 when the key is absent) give it the count [z + n], as long as
    that is 2^53 at most, and leave the count of another key, a safe integer
    too, as it is. *)
Theorem addFunction_repeated (n : nat) this key other (z : Z) w :
  count this w key = JSON.Int z ->
  (Z.abs z < 2 ^ 53)%Z ->
  (z + Z.of_nat n <= 2 ^ 53)%Z ->
  key <> other ->
  (forall v, Map.get other (ledger this w) = Some v -> JSON.safe v = true) ->
  count this (perform_all this (replicate n (Increment key)) w) key
  = JSON.Int (z + Z.of_nat n)
  /\ Map.get other (ledger this (perform_all this (replicate n (Increment key)) w))
     = Map.get other (ledger this w).
Proof.
  intros Hz _ _ Hne _. revert z w Hz. induction n as [|n IH]; intros z w Hz.
  { cbn. rewrite Hz. split; [f_equal; lia | done]. }
  cbn [replicate perform_all perform].
  destruct (IH (z + 1)%Z (addFunction this key w).2) as [Hcount Hother].
  { unfold count. by rewrite ledger_addFunction, MapFacts.get_set_eq, Hz. }
  rewrite Hcount, Hother. split; [f_equal; lia|].
  by rewrite ledger_addFunction, MapFacts.get_set_ne.
Qed.

(** X6. On a well-formed mapping [addFunction] keeps the order of the
    entries, as [Map.set] does: a key the mapping does not hold is appended
    at the end with the count 1, and for a key it holds the keys, their
    order and their number stay the same. *)
Theorem addFunction_order this key w :
  well_formed (ledger this w) ->
  (Map.get key (ledger this w) = None ->
   ledger this (addFunction this key w).2 = ledger this w ++ [(key, JSON.Int 1)])
  /\ (forall v, Map.get key (ledger this w) = Some v ->
      (ledger this (addFunction this key w).2).*1 = (ledger this w).*1
      /\ length (ledger this (addFunction this key w).2) = length (ledger this w)).
Proof.
  intros _. rewrite ledger_addFunction. split.
  - intros Habsent. unfold count. rewrite Habsent.
    apply MapFacts.set_fresh. by apply MapFacts.get_None.
  - intros v Hget.
    assert (Hkeys : (Map.set key (JSON.succ (count this w key)) (ledger this w)).*1
                    = (ledger this w).*1).
    { rewrite MapFacts.keys_set. rewrite decide_True; [done|].
      destruct (decide (key ∈ (ledger this w).*1)) as [|Hnotin]; [done|].
      apply MapFacts.get_None in Hnotin. congruence. }
    split; [done|].
    by rewrite <- (length_fmap fst), Hkeys, length_fmap.
Qed.

(** X7. When the stored array holds several well-formed entries for a key,
    [new Map] keeps the last one: the count [getMap] gives for the key is the
    number of the last item of the array whose first two elements are the key
    and a number. *)
Theorem getMap_last_entry_wins this w text before key value rest after :
  sessionStorage w !! storageKey this = Some text -> text <> [] ->
  JSON.parse text
  = Some (JSON.JArr (before ++ JSON.JArr (JSON.JStr key :: JSON.JNum value :: rest)
                            :: after)) ->
  (forall value' rest',
     JSON.JArr (JSON.JStr key :: JSON.JNum value' :: rest') ∉ after) ->
  Map.get key (ledger this w) = Some value.
Proof.
  intros Hstored Hne Hparse Hlast.
  rewrite ledger_read, Hstored. unfold read_text.
  destruct text as [|c text]; [done|]. cbn [parse_stored]. rewrite Hparse.
  rewrite filter_app, filter_cons_True by done.
  rewrite omap_app. cbn [omap list_omap key_value].
  apply get_of_entries_last.
  intros Hin. apply list_elem_of_fmap in Hin as ([k v] & Hk & Hin). cbn in Hk. subst k.
  apply elem_of_good_entries in Hin as [rest' Hin]. by apply (Hlast v rest').
Qed.

End MoreLedgerFacts.

(** * Further properties of the wrapped loader *)

Section TraceFacts.
Context {Component Error : Type}.
Implicit Types (w : World Error) (this : ForceReloadStorage) (sl : SafeLazy)
  (f : ImportFunction Component Error).
Local Open Scope nat_scope.

Lemma rejections_cons f start len :
  rejections f start (S len)
  = match call f start with
    | Rejected error => [LoadError error]
    | Fulfilled _ => []
    end ++ rejections f (S start) len.
Proof. unfold rejections. cbn [seq omap list_omap]. by destruct (call f start). Qed.

(** What one run of [tryImport] does, for every import function. *)
Lemma tryImport_trace (k : nat) r f n w :
  k = Z.to_nat (r - n) ->
  exists j,
    j <= k
    /\ calls (tryImport r f n w).2 = calls w + S j
    /\ (forall i, i < j -> exists e, call f (calls w + i) = Rejected e)
    /\ (tryImport r f n w).1.1 = call f (calls w + j)
    /\ ((exists e, call f (calls w + j) = Rejected e) -> j = k)
    /\ console (tryImport r f n w).2 = console w ++ rejections f (calls w) (S j).
Proof.
  revert n w. induction k as [|k IH]; intros n w Hk.
  - exists 0. rewrite Nat.add_0_r.
    destruct (call f (calls w)) as [c|e] eqn:Hcall.
    + rewrite (tryImport_fulfilled _ _ _ _ _ Hcall).
      unfold invoke. cbn [fst snd calls console].
      rewrite rejections_cons, Hcall. cbn [rejections seq omap list_omap app].
      rewrite ?app_nil_r. repeat split; try done; try lia.
    + rewrite (tryImport_give_up _ _ _ _ _ Hcall) by lia.
      unfold invoke, console_error. cbn [fst snd calls console].
      rewrite rejections_cons, Hcall. cbn [rejections seq omap list_omap app].
      rewrite ?app_nil_r. repeat split; try done; try lia.
  - destruct (call f (calls w)) as [c|e] eqn:Hcall.
    + exists 0. rewrite Nat.add_0_r.
      rewrite (tryImport_fulfilled _ _ _ _ _ Hcall).
      unfold invoke. cbn [fst snd calls console].
      rewrite rejections_cons, Hcall. cbn [rejections seq omap list_omap app].
      rewrite ?app_nil_r. repeat split; try done; try lia.
      intros [e He]. congruence.
    + rewrite (tryImport_retry _ _ _ _ _ Hcall) by lia.
      set (w1 := (console_error (LoadError e) (invoke f w).2).2).
      assert (Hc1 : calls w1 = S (calls w)) by done.
      assert (Hl1 : console w1 = console w ++ [LoadError e]) by done.
      destruct (IH (n + 1)%Z w1) as (j & Hj & Hcalls & Hfail & Hres & Hlast & Hlog); [lia|].
      rewrite Hc1 in *. exists (S j).
      replace (calls w + S j) with (S (calls w) + j) by lia.
      split; [lia|]. split; [lia|]. split; [|split; [done|split]].
      * intros [|i] Hi; [rewrite Nat.add_0_r; by eexists|].
        replace (calls w + S i) with (S (calls w) + i) by lia. apply Hfail. lia.
      * intros He. f_equal. by apply Hlast.
      * rewrite Hlog, Hl1, <- app_assoc. f_equal.
        by rewrite (rejections_cons f (calls w)), Hcall.
Qed.

Lemma safeLazy_calls sl f w :
  calls (safeLazy sl f w).2 = calls (tryImport (sl_importRetries sl) f 0 w).2.
Proof.
  destruct (tryImport (sl_importRetries sl) f 0 w) as [[[c|e] n] w1] eqn:Htry.
  - rewrite (safeLazy_fulfilled _ _ _ _ _ _ Htry). cbn [snd].
    destruct (greater_than_0 _); [|done]. apply removeFunction_counters.
  - rewrite (safeLazy_rejected _ _ _ _ _ _ Htry). apply onLoadError_calls.
Qed.

Lemma onLoadError_reload_storage sl key e w :
  less_than (count (reloadStorage sl) w key)
           (maxRetries (sl_forceReload sl)) = true ->
  sessionStorage (onLoadError (Component := Component) sl key e w).2
  = <[storageKey (reloadStorage sl) :=
        JSON.stringify (Map.set key (JSON.succ (count (reloadStorage sl) w key))
                                 (ledger (reloadStorage sl) w))]>
      (sessionStorage w).
Proof.
  intros Hlt. unfold onLoadError, bind. unfold count, ledger in Hlt.
  destruct (getMap (reloadStorage sl) w) as [stored w1] eqn:Hget.
  cbn [fst] in Hlt. rewrite Hlt.
  destruct (addFunction (reloadStorage sl) key w1) as [[] w2] eqn:Hadd.
  cbn [location_reload ret snd sessionStorage].
  assert (Hw1 : w1 = (getMap (reloadStorage sl) w).2) by by rewrite Hget.
  assert (Hw2 : w2 = (addFunction (reloadStorage sl) key w1).2) by by rewrite Hadd.
  destruct (getMap_world (reloadStorage sl) w) as (Hst & _). rewrite <- Hw1 in Hst.
  rewrite Hw2, addFunction_storage, Hst.
  by rewrite (count_same_storage _ w w1), (ledger_same_storage _ w w1).
Qed.

(** The three ways a render ends. *)
Lemma safeLazy_outcome sl f w :
  let this := reloadStorage sl in
  let key := toString f in
  let settled := (tryImport (sl_importRetries sl) f 0 w).1.1 in
  let w' := (safeLazy sl f w).2 in
  (exists c,
     settled = Fulfilled c /\ (safeLazy sl f w).1 = Fulfilled c
     /\ reloads w' = reloads w
     /\ sessionStorage w'
        = if greater_than_0 (maxRetries (sl_forceReload sl))
          then <[storageKey this := JSON.stringify (Map.delete key (ledger this w))]>
                 (sessionStorage w)
          else sessionStorage w)
  \/ (exists e,
        settled = Rejected e
        /\ less_than (count this w key) (maxRetries (sl_forceReload sl)) = true
        /\ (safeLazy sl f w).1 = Fulfilled NullModule
        /\ reloads w' = S (reloads w)
        /\ sessionStorage w'
           = <[storageKey this :=
                 JSON.stringify (Map.set key (JSON.succ (count this w key))
                                          (ledger this w))]>
               (sessionStorage w))
  \/ (exists e,
        settled = Rejected e
        /\ less_than (count this w key) (maxRetries (sl_forceReload sl)) = false
        /\ (safeLazy sl f w).1 = Rejected e
        /\ reloads w' = reloads w
        /\ sessionStorage w' = sessionStorage w).
Proof.
  intros this key settled w'. subst this key settled w'.
  destruct (tryImport_world (sl_importRetries sl) f 0 w) as [Hst Hrel].
  destruct (tryImport (sl_importRetries sl) f 0 w) as [[[c|e] n] w1] eqn:Htry;
    cbn [fst snd] in *.
  - left. exists c. rewrite (safeLazy_fulfilled _ _ _ _ _ _ Htry). cbn [fst snd].
    split; [done|]. split; [done|].
    destruct (greater_than_0 _); [|done].
    destruct (removeFunction_counters (reloadStorage sl) (toString f) w1) as [-> _].
    rewrite removeFunction_storage, Hst, (ledger_same_storage _ w w1) by done. done.
  - right. rewrite (safeLazy_rejected _ _ _ _ _ _ Htry).
    pose proof (count_same_storage (reloadStorage sl) w w1 (toString f) Hst) as Hcount.
    pose proof (ledger_same_storage (reloadStorage sl) w w1 Hst) as Hledger.
    destruct (less_than (count (reloadStorage sl) w (toString f))
                (maxRetries (sl_forceReload sl))) eqn:Hlt.
    + left. exists e. split; [done|]. split; [done|].
      rewrite <- Hcount in Hlt.
      rewrite (onLoadError_reload_storage sl (toString f) e w1 Hlt).
      destruct (onLoadError_reload (Component := Component) sl (toString f) e w1 Hlt)
        as (w2 & -> & Hrel2 & _). cbn [fst snd].
      split; [done|]. split; [congruence|].
      by rewrite Hcount, Hledger, Hst.
    + right. exists e. split; [done|]. split; [done|].
      rewrite <- Hcount in Hlt. rewrite (onLoadError_throw sl (toString f) e w1 Hlt).
      destruct (getMap_world (reloadStorage sl) w1) as (Hst2 & Hrel2 & _). cbn [fst snd].
      split; [done|]. split; congruence.
Qed.

End TraceFacts.

Section LoaderProperties.
Context {Component Error : Type}.
Implicit Types (w : World Error) (this : ForceReloadStorage) (sl : SafeLazy)
  (f : ImportFunction Component Error).
Local Open Scope nat_scope.

(** X8. [tryImport] calls the import function at least once and at most
    [importRetries + 1] times, returns what the last call it made settled
    with, made that call only because every earlier one was rejected, and
    rejects only after all [importRetries + 1] calls. *)
Theorem tryImport_stops_at_first_success r f w :
  let result := (tryImport r f 0 w).1.1 in
  let after := calls (tryImport r f 0 w).2 in
  calls w < after <= calls w + S (Z.to_nat r)
  /\ result = call f (after - 1)
  /\ (forall i, calls w <= i < after - 1 -> exists e, call f i = Rejected e)
  /\ (forall e, result = Rejected e -> after = calls w + S (Z.to_nat r)).
Proof.
  intros result after. subst result after.
  destruct (tryImport_trace (Z.to_nat r) r f 0 w) as (j & Hj & Hcalls & Hfail & Hres & Hlast & _);
    [f_equal; lia|].
  rewrite Hcalls, Hres. replace (calls w + S j - 1) with (calls w + j) by lia.
  split; [lia|]. split; [done|]. split.
  - intros i Hi. replace i with (calls w + (i - calls w)) by lia. apply Hfail. lia.
  - intros e He. rewrite (Hlast (ex_intro _ e He)). done.
Qed.

(** X9. [tryImport] gives [console.error] the error of every rejected call it
    made, in the order of the calls, and nothing else; it touches neither the
    session storage nor the location. *)
Theorem tryImport_logs_rejections r f w :
  console (tryImport r f 0 w).2
  = console w ++ rejections f (calls w) (calls (tryImport r f 0 w).2 - calls w)
  /\ sessionStorage (tryImport r f 0 w).2 = sessionStorage w
  /\ reloads (tryImport r f 0 w).2 = reloads w.
Proof.
  destruct (tryImport_trace (Z.to_nat r) r f 0 w) as (j & _ & Hcalls & _ & _ & _ & Hlog);
    [f_equal; lia|].
  rewrite Hlog, Hcalls. replace (calls w + S j - calls w) with (S j) by lia.
  split; [done|]. apply tryImport_world.
Qed.

(** X10. One load of the lazy component calls the import function at least
    once and at most [importRetries + 1] times, whatever the reload budget
    and the storage are; with [importRetries] zero or negative it calls it
    exactly once. *)
Theorem safeLazy_call_bound sl f w :
  calls w < calls (safeLazy sl f w).2
           <= calls w + S (Z.to_nat (sl_importRetries sl))
  /\ ((sl_importRetries sl <= 0)%Z -> calls (safeLazy sl f w).2 = S (calls w)).
Proof.
  rewrite safeLazy_calls.
  destruct (tryImport_trace (Z.to_nat (sl_importRetries sl)) (sl_importRetries sl) f 0 w)
    as (j & Hj & Hcalls & _); [f_equal; lia|].
  rewrite Hcalls. split; [lia|]. intros Hle. lia.
Qed.

(** X11. A load of the lazy component changes at most the entry of its own
    import function (the key [importFunction.toString()]) in its ledger, and
    at most the text under its own storage key: the count of another
    function, a safe integer, and the other keys of the session storage stay
    as they are. *)
Theorem safeLazy_frame sl f other w :
  (other <> toString f ->
   (forall v, Map.get other (ledger (reloadStorage sl) w) = Some v ->
              JSON.safe v = true) ->
   Map.get other (ledger (reloadStorage sl) (safeLazy sl f w).2)
   = Map.get other (ledger (reloadStorage sl) w))
  /\ (other <> storageKey (reloadStorage sl) ->
      sessionStorage (safeLazy sl f w).2 !! other = sessionStorage w !! other
      /\ ledger {| storageKey := other |} (safeLazy sl f w).2
         = ledger {| storageKey := other |} w).
Proof.
  pose proof (ledger_ok (reloadStorage sl) w) as Hok.
  destruct (safeLazy_outcome sl f w)
    as [(c & _ & _ & _ & Hst)|[(e & _ & _ & _ & _ & Hst)|(e & _ & _ & _ & _ & Hst)]].
  - split.
    + intros Hne _. rewrite !ledger_read, Hst. destruct (greater_than_0 _); [|done].
      rewrite lookup_insert_eq, read_text_stringify by by apply MapFacts.ok_delete.
      rewrite <- ledger_read. by apply MapFacts.get_delete_ne.
    + intros Hne. rewrite !ledger_read, Hst. cbn [storageKey].
      destruct (greater_than_0 _); [|done]. by rewrite lookup_insert_ne.
  - split.
    + intros Hne _. rewrite !ledger_read, Hst.
      rewrite lookup_insert_eq, read_text_stringify by by apply MapFacts.ok_set.
      rewrite <- ledger_read. by apply MapFacts.get_set_ne.
    + intros Hne. rewrite !ledger_read, Hst. cbn [storageKey].
      by rewrite lookup_insert_ne.
  - rewrite !ledger_read, Hst. done.
Qed.

(** X12. A load reloads the page at most once, and every reload is accounted
    for: when the page was reloaded the load resolved to the component that
    renders nothing, the import had been rejected with its retries used up,
    the count of the function was below [maxRetries], and, the count being a
    safe integer, the count stored afterwards is the count before plus
    one. *)
Theorem reload_is_recorded sl f w :
  reloads (safeLazy sl f w).2 <= S (reloads w)
  /\ (reloads (safeLazy sl f w).2 <> reloads w ->
      (safeLazy sl f w).1 = Fulfilled NullModule
      /\ (exists e, (tryImport (sl_importRetries sl) f 0 w).1.1 = Rejected e)
      /\ less_than (count (reloadStorage sl) w (toString f))
                   (maxRetries (sl_forceReload sl)) = true
      /\ (forall z,
            count (reloadStorage sl) w (toString f) = JSON.Int z ->
            (Z.abs z < 2 ^ 53)%Z ->
            count (reloadStorage sl) (safeLazy sl f w).2 (toString f)
            = JSON.Int (z + 1))).
Proof.
  pose proof (ledger_ok (reloadStorage sl) w) as Hok.
  destruct (safeLazy_outcome sl f w)
    as [(c & _ & _ & Hrel & _)|[(e & Hset & Hlt & Hres & Hrel & Hst)|(e & _ & _ & _ & Hrel & _)]].
  - rewrite Hrel. split; [lia | done].
  - rewrite Hrel. split; [lia|]. intros _.
    split; [done|]. split; [by exists e|]. split; [done|].
    intros z Hz _. unfold count at 1. rewrite ledger_read, Hst.
    rewrite lookup_insert_eq, read_text_stringify by by apply MapFacts.ok_set.
    by rewrite MapFacts.get_set_eq, Hz.
  - rewrite Hrel. split; [lia | done].
Qed.

(** X13. When a load rejects, the error is the one of the last import
    attempt, all [importRetries + 1] attempts were made, the count of the
    function was not below [maxRetries], and neither the session storage nor
    the location was touched. *)
Theorem rejection_writes_nothing sl f w e :
  (safeLazy sl f w).1 = Rejected e ->
  sessionStorage (safeLazy sl f w).2 = sessionStorage w
  /\ reloads (safeLazy sl f w).2 = reloads w
  /\ call f (calls (safeLazy sl f w).2 - 1) = Rejected e
  /\ calls (safeLazy sl f w).2 = calls w + S (Z.to_nat (sl_importRetries sl))
  /\ less_than (count (reloadStorage sl) w (toString f))
              (maxRetries (sl_forceReload sl)) = false.
Proof.
  intros Hrejected. rewrite safeLazy_calls.
  destruct (tryImport_trace (Z.to_nat (sl_importRetries sl)) (sl_importRetries sl) f 0 w)
    as (j & Hj & Hcalls & _ & Hlast & Hexh & _); [f_equal; lia|].
  rewrite Hcalls. replace (calls w + S j - 1) with (calls w + j) by lia.
  destruct (safeLazy_outcome sl f w)
    as [(c & _ & Hres & _)|[(e' & _ & _ & Hres & _)|(e' & Hset & Hlt & Hres & Hrel & Hst)]];
    try congruence.
  assert (e' = e) as -> by congruence.
  rewrite Hset in Hlast. split; [done|]. split; [done|]. split; [done|].
  split; [|done]. rewrite (Hexh (ex_intro _ e (eq_sym Hlast))). done.
Qed.


End LoaderProperties.

Section BudgetProperties.
Context {Component Error : Type}.
Implicit Types (w : World Error) (this : ForceReloadStorage) (sl other : SafeLazy)
  (f g : ImportFunction Component Error).
Local Open Scope nat_scope.

(** [n] renders of a loader that always fails, from an integer count. *)
Lemma renders_failing_from (n : nat) (z max : Z) sl f w :
  maxRetries (sl_forceReload sl) = Some max ->
  (forall i, exists e, call f i = Rejected e) ->
  count (reloadStorage sl) w (toString f) = JSON.Int z ->
  let left := Z.to_nat (max - z) in
  reloads (renders n sl f w).2 = reloads w + min n left
  /\ count (reloadStorage sl) (renders n sl f w).2 (toString f)
     = JSON.Int (z + Z.of_nat (min n left))
  /\ forall i, i < n ->
       (renders n sl f w).1 !! i
       = Some (if decide (i < left) then Fulfilled NullModule
               else call f (calls w + (i + 1) * S (Z.to_nat (sl_importRetries sl)) - 1)).
Proof.
  intros Hmax Hfail. revert z w. induction n as [|n IH]; intros z w Hcount left.
  { cbn. rewrite Hcount. split; [lia|]. split; [f_equal; lia | lia]. }
  destruct (safeLazy_failing sl f w Hfail) as (e & w1 & Hlast & Hrun & Hcalls & Hst & Hrel).
  cbn [renders]. unfold bind. rewrite Hrun.
  pose proof (count_same_storage (reloadStorage sl) w w1 (toString f) Hst) as Hcount1.
  rewrite Hcount in Hcount1.
  destruct (decide (z < max)%Z) as [Hlt|Hge].
  - destruct (onLoadError_reload (Component := Component) sl (toString f) e w1)
      as (w2 & -> & Hrel2 & Hcalls2 & Hledger).
    { rewrite Hcount1, Hmax. cbn [less_than]. rewrite ltb_Int. by apply Z.ltb_lt. }
    apply count_set in Hledger. rewrite Hcount1 in Hledger. cbn [JSON.succ] in Hledger.
    destruct (IH (z + 1)%Z w2 Hledger) as (IHrel & IHcount & IHres).
    destruct (renders n sl f w2) as [rs w3]. cbn [fst snd ret] in *.
    assert (Hleft : Z.to_nat (max - (z + 1)) = left - 1) by (subst left; lia).
    assert (0 < left) by (subst left; lia).
    rewrite Hleft in *.
    split; [lia|]. split; [rewrite IHcount; f_equal; lia|].
    intros [|i] Hi; cbn [lookup list_lookup].
    + by rewrite decide_True by lia.
    + rewrite IHres by lia. f_equal.
      destruct (decide (i < left - 1)), (decide (S i < left)); try lia; [done|].
      f_equal. lia.
  - rewrite onLoadError_throw
      by (rewrite Hcount1, Hmax; cbn [less_than]; rewrite ltb_Int; apply Z.ltb_ge; lia).
    destruct (getMap_world (reloadStorage sl) w1) as (Hst2 & Hrel2 & Hcalls2).
    set (w2 := (getMap (reloadStorage sl) w1).2) in *.
    destruct (IH z w2) as (IHrel & IHcount & IHres).
    { by rewrite (count_same_storage _ w1 w2). }
    destruct (renders n sl f w2) as [rs w3]. cbn [fst snd ret] in *.
    assert (left = 0) as Hleft by (subst left; lia).
    rewrite Hleft in *. rewrite Nat.min_0_r in *.
    split; [lia|]. split; [rewrite IHcount; f_equal; lia|].
    intros [|i] Hi; cbn [lookup list_lookup].
    + rewrite decide_False by lia. f_equal. rewrite <- Hlast. f_equal. lia.
    + rewrite IHres by lia. f_equal.
      rewrite !decide_False by lia. f_equal. lia.
Qed.

(** X15. For an import function that always fails and whose stored count is
    the safe integer [z], under a limit [maxRetries = max] of 2^53 at most
    in absolute value: [n] page loads reload the page [min n (max - z)]
    times (none when [max <= z], so for a negative [max] too), the count
    ends at [z] plus that number, the loads that reload resolve to the
    component that renders nothing, and every load after them settles as its
    last import attempt did: it rejects with that error. *)
Theorem reload_budget_from_count (n : nat) (z max : Z) sl f w :
  maxRetries (sl_forceReload sl) = Some max ->
  (Z.abs max <= 2 ^ 53)%Z ->
  (forall i, exists e, call f i = Rejected e) ->
  count (reloadStorage sl) w (toString f) = JSON.Int z ->
  (Z.abs z < 2 ^ 53)%Z ->
  reloads (renders n sl f w).2 = reloads w + min n (Z.to_nat (max - z))
  /\ count (reloadStorage sl) (renders n sl f w).2 (toString f)
     = JSON.Int (z + Z.of_nat (min n (Z.to_nat (max - z))))
  /\ forall i, i < n ->
       (renders n sl f w).1 !! i
       = Some (if decide (i < Z.to_nat (max - z))
               then Fulfilled NullModule
               else call f (calls w + (i + 1) * S (Z.to_nat (sl_importRetries sl)) - 1)).
Proof. intros Hmax _ Hfail Hcount _. by apply renders_failing_from. Qed.

(** X16. The reload count belongs to the storage key and the source text of
    the import function, not to the factory or the function object: after a
    load under one factory has reloaded the page, another factory with the
    same storage key reads a count one higher, the count being a safe
    integer, for every import function with the same [toString()]. *)
Theorem budget_is_shared sl other f g w (z : Z) :
  storageKey (reloadStorage other) = storageKey (reloadStorage sl) ->
  toString g = toString f ->
  reloads (safeLazy sl f w).2 <> reloads w ->
  count (reloadStorage other) w (toString g) = JSON.Int z ->
  (Z.abs z < 2 ^ 53)%Z ->
  count (reloadStorage other) (safeLazy sl f w).2 (toString g) = JSON.Int (z + 1).
Proof.
  intros Hkey Hsource Hreload Hz _.
  assert (Hthis : reloadStorage other = reloadStorage sl).
  { destruct (reloadStorage other), (reloadStorage sl). cbn in Hkey. by subst. }
  rewrite Hthis, Hsource in *.
  pose proof (ledger_ok (reloadStorage sl) w) as Hok.
  destruct (safeLazy_outcome sl f w)
    as [(c & _ & _ & Hrel & _)|[(e & _ & _ & _ & _ & Hst)|(e & _ & _ & _ & Hrel & _)]];
    [done | | done].
  unfold count at 1. rewrite ledger_read, Hst.
  rewrite lookup_insert_eq, read_text_stringify by by apply MapFacts.ok_set.
  by rewrite MapFacts.get_set_eq, Hz.
Qed.

(** X17. Stored text that is no JSON counts as an empty history for a load:
    with a positive [maxRetries] a failing load reloads the page, and the
    corrupt text is replaced by a ledger that holds the function with the
    count 1 and nothing else. *)
Theorem corrupt_storage_reloads sl f w text :
  sessionStorage w !! storageKey (reloadStorage sl) = Some text ->
  text <> [] ->
  JSON.parse text = None ->
  (forall i, i <= Z.to_nat (sl_importRetries sl) ->
             exists e, call f (calls w + i) = Rejected e) ->
  greater_than_0 (maxRetries (sl_forceReload sl)) = true ->
  (safeLazy sl f w).1 = Fulfilled NullModule
  /\ reloads (safeLazy sl f w).2 = S (reloads w)
  /\ ledger (reloadStorage sl) (safeLazy sl f w).2 = [(toString f, JSON.Int 1)]
  /\ sessionStorage (safeLazy sl f w).2 !! storageKey (reloadStorage sl)
     = Some (JSON.stringify [(toString f, JSON.Int 1)]).
Proof.
  intros Hstored Hne Hparse Hfail Hmax.
  assert (Hledger : ledger (reloadStorage sl) w = []).
  { rewrite ledger_read, Hstored. unfold read_text.
    destruct text as [|c text]; [done|]. cbn [parse_stored]. by rewrite Hparse. }
  assert (Hcount : count (reloadStorage sl) w (toString f) = JSON.Int 0).
  { unfold count. by rewrite Hledger. }
  destruct (tryImport_exhausted (Z.to_nat (sl_importRetries sl)) (sl_importRetries sl) f 0 w)
    as (e & n' & w1 & Htry & _); [f_equal; lia | done |].
  destruct (safeLazy_outcome sl f w)
    as [(c & Hset & _)|[(e' & _ & _ & Hres & Hrel & Hst)|(e' & _ & Hlt & _)]].
  - rewrite Htry in Hset. done.
  - split; [done|]. split; [done|].
    rewrite ledger_read, Hst, lookup_insert_eq, Hcount, Hledger. cbn [Map.set JSON.succ].
    split; [|done]. apply read_text_stringify. apply NoDup_singleton.
  - rewrite Hcount, less_than_0 in Hlt. congruence.
Qed.

(** X18. A successful load gives the function its whole reload budget back:
    whatever the count was before, after a load that succeeded (under a
    positive [maxRetries]) [n] loads of an always failing import function
    with the same source text reload the page [min n maxRetries] times. *)
Theorem success_restores_budget (n : nat) (max : Z) sl f g w c :
  (tryImport (sl_importRetries sl) f 0 w).1.1 = Fulfilled c ->
  maxRetries (sl_forceReload sl) = Some max ->
  (0 < max)%Z ->
  toString g = toString f ->
  (forall i, exists e, call g i = Rejected e) ->
  reloads (renders n sl g (safeLazy sl f w).2).2 = reloads w + min n (Z.to_nat max).
Proof.
  intros Hok Hmax Hpos Hsource Hfail.
  pose proof (ledger_ok (reloadStorage sl) w) as Hwf.
  destruct (safeLazy_outcome sl f w)
    as [(c' & _ & _ & Hrel & Hst)|[(e & Hset & _)|(e & Hset & _)]]; try congruence.
  rewrite Hmax in Hst. cbn [greater_than_0] in Hst.
  rewrite bool_decide_eq_true_2 in Hst by lia.
  assert (Hcount : count (reloadStorage sl) (safeLazy sl f w).2 (toString g) = JSON.Int 0).
  { unfold count. rewrite ledger_read, Hst, lookup_insert_eq.
    rewrite read_text_stringify by by apply MapFacts.ok_delete.
    by rewrite Hsource, MapFacts.get_delete_eq. }
  destruct (renders_failing_from n 0 max sl g _ Hmax Hfail Hcount) as (Hreloads & _).
  rewrite Hreloads, Hrel, Z.sub_0_r. done.
Qed.

End BudgetProperties.

(** * The exported [safeLazy] *)

Section DefaultExport.
Context {Component Error : Type}.
Implicit Types (w : World Error) (f : ImportFunction Component Error).
Local Open Scope nat_scope.

(** X19. The exported [safeLazy], made by [createSafeLazy()], calls the
    import function once per load and reloads the page once.  For an import
    function without an entry in the default ledger whose call is rejected:
    the load reloads the page, resolves to the component that renders nothing
    and stores the count 1; the load after the reload makes one call again,
    and rejects with its error when it fails, without another reload and
    without a write, or resolves to its module and removes the entry when it
    succeeds. *)
Theorem default_export_reloads_once f w :
  Map.get (toString f) (ledger default_ledger w) = None ->
  (exists e, call f (calls w) = Rejected e) ->
  let sl := createSafeLazy no_init in
  let w1 := (safeLazy sl f w).2 in
  ((safeLazy sl f w).1 = Fulfilled NullModule
   /\ reloads w1 = S (reloads w)
   /\ calls w1 = S (calls w)
   /\ count default_ledger w1 (toString f) = JSON.Int 1)
  /\ calls (safeLazy sl f w1).2 = calls w + 2
  /\ reloads (safeLazy sl f w1).2 = S (reloads w)
  /\ (forall e, call f (S (calls w)) = Rejected e ->
        (safeLazy sl f w1).1 = Rejected e
        /\ sessionStorage (safeLazy sl f w1).2 = sessionStorage w1)
  /\ (forall c, call f (S (calls w)) = Fulfilled c ->
        (safeLazy sl f w1).1 = Fulfilled c
        /\ Map.get (toString f) (ledger default_ledger (safeLazy sl f w1).2) = None).
Proof.
  intros Habsent [e Hfirst] sl w1.
  assert (Hcount : count default_ledger w (toString f) = JSON.Int 0).
  { unfold count. by rewrite Habsent. }
  assert (Hone : forall w0, calls (safeLazy sl f w0).2 = S (calls w0)
                            /\ (tryImport 0 f 0 w0).1.1 = call f (calls w0)).
  { intros w0. rewrite safeLazy_calls.
    destruct (tryImport_trace 0 0 f 0 w0 eq_refl) as (j & Hj & Hcalls & _ & Hres & _).
    assert (j = 0) as -> by lia. rewrite Nat.add_0_r in Hres.
    split; [cbn; lia | done]. }
  assert (Hfst : (safeLazy sl f w).1 = Fulfilled NullModule
                 /\ reloads w1 = S (reloads w)
                 /\ calls w1 = S (calls w)
                 /\ count default_ledger w1 (toString f) = JSON.Int 1).
  { destruct (Hone w) as [Hcalls Hres].
    pose proof (ledger_ok default_ledger w) as Hok.
    destruct (safeLazy_outcome sl f w)
      as [(c & Hset & _)|[(e' & _ & _ & Hr & Hrel & Hst)|(e' & _ & Hlt & _)]].
    - cbn in Hset. rewrite Hres, Hfirst in Hset. done.
    - split; [done|]. split; [done|]. split; [done|].
      subst w1. unfold count at 1.
      change (reloadStorage sl) with default_ledger in Hst.
      rewrite ledger_read, Hst, lookup_insert_eq, Hcount.
      rewrite read_text_stringify by by apply MapFacts.ok_set.
      by rewrite MapFacts.get_set_eq.
    - change (reloadStorage sl) with default_ledger in Hlt.
      rewrite Hcount in Hlt. done. }
  split; [done|]. destruct Hfst as (_ & Hrel1 & Hcalls1 & Hcount1).
  destruct (Hone w1) as [Hcalls2 Hres2]. rewrite Hcalls1 in Hres2.
  pose proof (ledger_ok default_ledger w1) as Hok1.
  split; [lia|].
  destruct (safeLazy_outcome sl f w1)
    as [(c & Hset & Hr & Hrel & Hst)|[(e' & _ & Hlt & _)|(e' & Hset & _ & Hr & Hrel & Hst)]].
  - split; [lia|]. cbn in Hset. rewrite Hres2 in Hset. split.
    + intros e' He'. congruence.
    + intros c' Hc'. split; [congruence|].
      change (greater_than_0 _) with true in Hst.
      change (reloadStorage sl) with default_ledger in Hst.
      rewrite ledger_read, Hst, lookup_insert_eq.
      rewrite read_text_stringify by by apply MapFacts.ok_delete.
      by apply MapFacts.get_delete_eq.
  - change (reloadStorage sl) with default_ledger in Hlt.
    rewrite Hcount1 in Hlt. done.
  - split; [lia|]. cbn in Hset. rewrite Hres2 in Hset. split.
    + intros e'' He''. split; [congruence | done].
    + intros c' Hc'. congruence.
Qed.

End DefaultExport.

(** * A limit that is [undefined] *)

Section UndefinedLimit.
Context {Component Error : Type}.
Implicit Types (w : World Error) (sl : SafeLazy) (f : ImportFunction Component Error).
Local Open Scope nat_scope.

(** Both tests of an [undefined] limit are false: a load settles as its
    import attempts did, and neither writes nor reloads. *)
Lemma safeLazy_undefined sl f w :
  maxRetries (sl_forceReload sl) = None ->
  (safeLazy sl f w).1 = (tryImport (sl_importRetries sl) f 0 w).1.1
  /\ sessionStorage (safeLazy sl f w).2 = sessionStorage w
  /\ reloads (safeLazy sl f w).2 = reloads w.
Proof.
  intros Hmax.
  destruct (safeLazy_outcome sl f w)
    as [(c & Hset & Hres & Hrel & Hst)|[(e & _ & Hlt & _)|(e & Hset & _ & Hres & Hrel & Hst)]].
  - rewrite Hmax in Hst. by rewrite Hset.
  - by rewrite Hmax in Hlt.
  - by rewrite Hset.
Qed.

(** X20. [Partial] lets the [forceReload] object hold [maxRetries: undefined],
    and the spread of [createConfig] copies it over the default 1.  The
    factory then never reloads the page and never writes to the session
    storage, whatever the import function does and whatever counts are
    stored, a negative one too: every load settles as its import attempts
    did. *)
Theorem undefined_limit_disables (n : nat) partial retries f w :
  init_maxRetries partial = Some None ->
  let sl := createSafeLazy {| init_forceReload := Some (ForceReloadWith partial);
                              init_importRetries := retries |} in
  maxRetries (sl_forceReload sl) = None
  /\ (safeLazy sl f w).1 = (tryImport (sl_importRetries sl) f 0 w).1.1
  /\ sessionStorage (renders n sl f w).2 = sessionStorage w
  /\ reloads (renders n sl f w).2 = reloads w.
Proof.
  intros Hheld sl.
  assert (Hmax : maxRetries (sl_forceReload sl) = None).
  { subst sl. unfold createSafeLazy, createConfig. cbn. by rewrite Hheld. }
  split; [done|]. split; [by apply safeLazy_undefined|].
  clearbody sl. revert w. induction n as [|n IH]; intros w; [done|].
  destruct (safeLazy_undefined sl f w Hmax) as (_ & Hst & Hrel).
  cbn [renders]. unfold bind.
  destruct (safeLazy sl f w) as [r w1]. cbn [snd] in *.
  destruct (IH w1) as [Hst' Hrel'].
  destruct (renders n sl f w1) as [rs w2]. cbn in *.
  split; congruence.
Qed.

End UndefinedLimit.

(** * The further properties at concrete inputs *)

Section MoreWitnesses.
Local Open Scope nat_scope.
Local Open Scope string_scope.

Lemma ledger_writes_one_key_witness :
  let page : World string :=
    mkWorld {[ str "elsewhere" := quoted "[['other',3]]" ]} [] 0 0 in
  sessionStorage (addFunction default_ledger source page).2 !! str "elsewhere"
  = Some (quoted "[['other',3]]")
  /\ ledger {| storageKey := str "elsewhere" |}
       (removeFunction default_ledger (str "other") page).2
     = [(str "other", JSON.Int 3)].
Proof.
  intros page.
  destruct (ledger_writes_one_key default_ledger source [] (str "elsewhere") page)
    as (Hadd & _).
  - vm_compute. discriminate.
  - destruct (ledger_writes_one_key default_ledger (str "other") [] (str "elsewhere") page)
      as (_ & _ & _ & _ & Hremove).
    + vm_compute. discriminate.
    + rewrite Hadd, Hremove. vm_compute. split; reflexivity.
Defined.

Lemma write_repairs_storage_witness :
  let page := with_stored (quoted "[ ['other', 3], 'x', [1, 2] ]") in
  sessionStorage (addFunction default_ledger source page).2 !! defaultStorageKey
  = Some (JSON.stringify [(str "other", JSON.Int 3); (source, JSON.Int 1)])
  /\ sessionStorage (removeFunction default_ledger source page).2 !! defaultStorageKey
     = Some (quoted "[['other',3]]").
Proof.
  intros page.
  destruct (write_repairs_storage default_ledger source page) as [_ Htext].
  destruct Htext as [Hadd Hremove]; [evaluate_mapping|].
  split; (etrans; [eassumption|]); vm_compute; reflexivity.
Defined.

Lemma removeFunction_absent_witness :
  let page := with_stored (quoted "[ ['other', 3], 'x' ]") in
  ledger default_ledger (removeFunction default_ledger source page).2
  = [(str "other", JSON.Int 3)]
  /\ sessionStorage (removeFunction default_ledger source page).2 !! defaultStorageKey
     = Some (quoted "[['other',3]]").
Proof.
  intros page.
  destruct (removeFunction_absent default_ledger source page) as [Hledger Hstored].
  - evaluate_mapping.
  - vm_compute. reflexivity.
  - split; [rewrite Hledger | etrans; [exact Hstored|]]; vm_compute; reflexivity.
Defined.

Lemma removeFunction_absorbs_witness :
  let page := with_stored (quoted "[['other',3],['a',1]]") in
  sessionStorage
    (removeFunction default_ledger (str "a")
       (addFunction default_ledger (str "a") page).2).2 !! defaultStorageKey
  = Some (quoted "[['other',3]]").
Proof.
  intros page.
  destruct (removeFunction_absorbs default_ledger (str "a") page) as [_ Hadd].
  - evaluate_mapping.
  - rewrite Hadd. vm_compute. reflexivity.
Defined.

Lemma addFunction_repeated_witness :
  let page := with_stored (quoted "[['other',3]]") in
  let ops := replicate 3 (Increment source) in
  count default_ledger (perform_all default_ledger ops page) source = JSON.Int 3
  /\ Map.get (str "other") (ledger default_ledger (perform_all default_ledger ops page))
     = Some (JSON.Int 3).
Proof.
  intros page ops.
  destruct (addFunction_repeated 3 default_ledger source (str "other") 0 page)
    as [Hcount Hother].
  - vm_compute. reflexivity.
  - reflexivity.
  - vm_compute. discriminate.
  - vm_compute. discriminate.
  - intros v Hv. vm_compute in Hv. injection Hv as <-. reflexivity.
  - split; [exact Hcount|]. unfold ops. rewrite Hother. vm_compute. reflexivity.
Defined.

Lemma addFunction_order_witness :
  let page := with_stored (quoted "[['b',3],['a',1]]") in
  ledger default_ledger (addFunction default_ledger source page).2
  = [(str "b", JSON.Int 3); (str "a", JSON.Int 1); (source, JSON.Int 1)]
  /\ (ledger default_ledger (addFunction default_ledger (str "b") page).2).*1
     = [str "b"; str "a"].
Proof.
  intros page.
  destruct (addFunction_order default_ledger source page) as [Hnew _];
    [evaluate_mapping|].
  destruct (addFunction_order default_ledger (str "b") page) as [_ Hold];
    [evaluate_mapping|].
  split.
  - rewrite Hnew by (vm_compute; reflexivity). vm_compute. reflexivity.
  - destruct (Hold (JSON.Int 3)) as [Hkeys _]; [vm_compute; reflexivity|].
    rewrite Hkeys. vm_compute. reflexivity.
Defined.

Lemma getMap_last_entry_wins_witness :
  let page := with_stored (quoted "[['a',1],['b',2],['a',5,null],'x']") in
  Map.get (str "a") (ledger default_ledger page) = Some (JSON.Int 5).
Proof.
  intros page.
  apply (getMap_last_entry_wins default_ledger page
           (quoted "[['a',1],['b',2],['a',5,null],'x']")
           [JSON.JArr [JSON.JStr (str "a"); JSON.JNum (JSON.Int 1)];
            JSON.JArr [JSON.JStr (str "b"); JSON.JNum (JSON.Int 2)]]
           (str "a") (JSON.Int 5) [JSON.JNull] [JSON.JStr (str "x")]).
  - vm_compute. reflexivity.
  - vm_compute. discriminate.
  - vm_compute. reflexivity.
  - intros value rest Hin. apply list_elem_of_singleton in Hin. discriminate Hin.
Defined.

Lemma tryImport_stops_at_first_success_witness :
  let run := tryImport (Component := string) 2 (failing_until 1) 0 fresh in
  (0 < calls run.2 <= 3 /\ run.1.1 = call (failing_until 1) (calls run.2 - 1))
  /\ calls (tryImport 2 failing 0 fresh).2 = 3.
Proof.
  intros run. split.
  - destruct (tryImport_stops_at_first_success 2 (failing_until 1) fresh)
      as (Hbound & Hresult & _).
    split; [exact Hbound | exact Hresult].
  - destruct (tryImport_stops_at_first_success 2 failing fresh) as (_ & _ & _ & Hall).
    apply (Hall "Failed to load component"). vm_compute. reflexivity.
Defined.

Lemma safeLazy_call_bound_witness :
  calls (safeLazy (factory (limit 3) None) failing fresh).2 = 1.
Proof.
  destruct (safeLazy_call_bound (factory (limit 3) None) failing fresh) as [_ Hone].
  apply Hone. vm_compute. discriminate.
Defined.

Lemma safeLazy_frame_witness :
  let sl := factory None None in
  let page : World string :=
    mkWorld {[ defaultStorageKey := quoted "[['other',3]]";
               str "elsewhere" := str "text" ]} [] 0 0 in
  Map.get (str "other") (ledger (reloadStorage sl) (safeLazy sl failing page).2)
  = Some (JSON.Int 3)
  /\ sessionStorage (safeLazy sl failing page).2 !! str "elsewhere" = Some (str "text").
Proof.
  intros sl page.
  destruct (safeLazy_frame sl failing (str "other") page) as [Hentry _].
  destruct (safeLazy_frame sl failing (str "elsewhere") page) as [_ Hkey].
  split.
  - rewrite Hentry.
    + vm_compute. reflexivity.
    + vm_compute. discriminate.
    + intros v Hv. vm_compute in Hv. injection Hv as <-. reflexivity.
  - destruct Hkey as [Htext _]; [vm_compute; discriminate|].
    rewrite Htext. vm_compute. reflexivity.
Defined.

Lemma reload_is_recorded_witness :
  let sl := factory None None in
  (safeLazy sl failing fresh).1 = Fulfilled NullModule
  /\ count (reloadStorage sl) (safeLazy sl failing fresh).2 source = JSON.Int 1.
Proof.
  intros sl.
  destruct (reload_is_recorded sl failing fresh) as [_ Hreload].
  destruct Hreload as (Hresult & _ & _ & Hcount).
  - vm_compute. discriminate.
  - split; [exact Hresult|]. apply (Hcount 0%Z); reflexivity.
Defined.

Lemma rejection_writes_nothing_witness :
  let sl := factory (Some ForceReloadOff) (Some 1%Z) in
  let page := with_stored (str "invalid") in
  sessionStorage (safeLazy sl failing page).2 = sessionStorage page
  /\ reloads (safeLazy sl failing page).2 = 0
  /\ calls (safeLazy sl failing page).2 = 2.
Proof.
  intros sl page.
  destruct (rejection_writes_nothing sl failing page "Failed to load component")
    as (Hstorage & Hreloads & _ & Hcalls & _).
  - vm_compute. reflexivity.
  - split; [exact Hstorage|]. split; [exact Hreloads | exact Hcalls].
Defined.


Lemma reload_budget_from_count_witness :
  let sl := factory (limit 3) None in
  let page := (addFunction default_ledger source fresh).2 in
  reloads (renders 4 sl failing page).2 = 2
  /\ count (reloadStorage sl) (renders 4 sl failing page).2 source = JSON.Int 3
  /\ (renders 4 sl failing page).1 !! 2 = Some (Rejected "Failed to load component").
Proof.
  intros sl page.
  destruct (reload_budget_from_count 4 1 3 sl failing page)
    as (Hreloads & Hcount & Hresults).
  - reflexivity.
  - vm_compute. discriminate.
  - intros i. eexists. reflexivity.
  - vm_compute. reflexivity.
  - reflexivity.
  - split; [exact Hreloads|]. split; [exact Hcount|].
    rewrite (Hresults 2) by lia. reflexivity.
Defined.

Lemma budget_is_shared_witness :
  let page := with_stored (quoted "[['other',3]]") in
  count (reloadStorage (factory (limit 5) (Some 3%Z)))
        (safeLazy (factory None None) failing page).2 (toString (failing_until 0))
  = JSON.Int 1.
Proof.
  intros page.
  apply (budget_is_shared (factory None None) (factory (limit 5) (Some 3%Z))
           failing (failing_until 0) page 0).
  - reflexivity.
  - reflexivity.
  - vm_compute. discriminate.
  - vm_compute. reflexivity.
  - reflexivity.
Defined.

Lemma corrupt_storage_reloads_witness :
  let sl := factory None (Some 1%Z) in
  let page := with_stored (str "invalid") in
  (safeLazy sl failing page).1 = Fulfilled NullModule
  /\ reloads (safeLazy sl failing page).2 = 1
  /\ ledger (reloadStorage sl) (safeLazy sl failing page).2 = [(source, JSON.Int 1)].
Proof.
  intros sl page.
  destruct (corrupt_storage_reloads sl failing page (str "invalid"))
    as (Hresult & Hreloads & Hledger & _).
  - vm_compute. reflexivity.
  - vm_compute. discriminate.
  - vm_compute. reflexivity.
  - intros i Hi. eexists. reflexivity.
  - vm_compute. reflexivity.
  - split; [exact Hresult|]. split; [exact Hreloads | exact Hledger].
Defined.

Lemma success_restores_budget_witness :
  let sl := factory (limit 2) None in
  let page := (renders 2 sl failing fresh).2 in
  reloads page = 2
  /\ reloads (renders 3 sl failing (safeLazy sl (failing_until 0) page).2).2 = 4.
Proof.
  intros sl page. split; [vm_compute; reflexivity|].
  rewrite (success_restores_budget 3 2 sl (failing_until 0) failing page
             (Default "Component")).
  - vm_compute. reflexivity.
  - vm_compute. reflexivity.
  - reflexivity.
  - reflexivity.
  - reflexivity.
  - intros i. eexists. reflexivity.
Defined.

Lemma undefined_limit_disables_witness :
  let partial := {| init_maxRetries := Some None; init_storageKey := None |} in
  let sl := factory (Some (ForceReloadWith partial)) (Some 1%Z) in
  let page := with_stored (quoted "[['" ++ source ++ quoted "',-1]]")%list in
  maxRetries (sl_forceReload sl) = None
  /\ (safeLazy sl failing page).1 = Rejected "Failed to load component"
  /\ sessionStorage (renders 3 sl failing page).2 = sessionStorage page
  /\ reloads (renders 3 sl failing page).2 = 0.
Proof.
  intros partial sl page.
  destruct (undefined_limit_disables 3 partial (Some 1%Z) failing page)
    as (Hmax & Hresult & Hstorage & Hreloads).
  - reflexivity.
  - split; [exact Hmax|]. split; [|split; [exact Hstorage | exact Hreloads]].
    etrans; [exact Hresult|]. vm_compute. reflexivity.
Defined.

Lemma default_export_reloads_once_witness :
  let sl := createSafeLazy no_init in
  let page := (safeLazy sl failing fresh).2 in
  reloads page = 1
  /\ (safeLazy sl failing page).1 = Rejected "Failed to load component"
  /\ (safeLazy sl (failing_until 1) page).1 = Fulfilled (Default "Component").
Proof.
  intros sl page.
  destruct (default_export_reloads_once failing fresh) as ((_ & Hreloads & _) & _ & _ & Hfail & _).
  - vm_compute. reflexivity.
  - eexists. reflexivity.
  - destruct (default_export_reloads_once (failing_until 1) fresh)
      as (_ & _ & _ & _ & Hsucceed).
    + vm_compute. reflexivity.
    + eexists. reflexivity.
    + split; [exact Hreloads|]. split.
      * apply Hfail. reflexivity.
      * apply (Hsucceed (Default "Component")). reflexivity.
Defined.

End MoreWitnesses.
